(** * Verification of the topology cache, the cluster builder and the
    cluster dump of the service-mesh control plane.

    Each module embeds one source file:
    - [PodCache]: galley/pkg/config/processor/transforms/serviceentry/pod/cache.go
    - [ConfigDump]: istioctl/pkg/util/configdump/cluster.go
    - [ClusterBuilder]: the cluster builder of package v1alpha3 (the second
      part of pilot/pkg/proxy/envoy/v2/init_test.go)
    - [AdsTestClient]: the helpers of the discovery test client that compute
      (the first part of init_test.go)
    - [PushSession]: the aggregated-discovery session, of which the sources
      hold the test client only (the first part of init_test.go). *)

From Stdlib Require OrdersEx.
From stdpp Require Import gmap strings list fin_maps sorting pretty.

(** A Go [map[string]string]. [None] is the nil map: it reads like the empty
    map, but [reflect.DeepEqual] tells the two apart. *)
Abbreviation GoMap := (option (gmap string string)).

(** [m[k]] on a Go map: the zero value when the key (or the map) is absent. *)
Definition goIndex (m : GoMap) (k : string) : string :=
  default "" (m ≫= (.!! k)).

(* ===================================================================== *)
(** * The pod cache (pod/cache.go) *)
(* ===================================================================== *)
Module PodCache.

(** k8s well known labels *)
Definition LabelZoneRegion : string := "failure-domain.beta.kubernetes.io/region".
Definition LabelZoneFailureDomain : string := "failure-domain.beta.kubernetes.io/zone".

(** The part of [k8s.io/api/core/v1] the cache reads. [PodPhase] is a string
    type there. *)
Module coreV1.
Definition PodPending : string := "Pending".
Definition PodRunning : string := "Running".
Record PodSpec := { NodeName : string; ServiceAccountName : string }.
Record PodStatus := { PodIP : string; Phase : string }.
Record Pod := { Namespace : string; Labels : GoMap; Spec : PodSpec; Status : PodStatus }.
End coreV1.

(** Info for a Pod. [FullName] is a [resource.Name], a wrapped string. *)
Record Info := {
  IP : string;
  FullName : string;
  Labels : GoMap;
  Locality : string;
  ServiceAccountName : string;
  NodeName : string
}.

#[global] Instance Info_eq_dec : EqDecision Info.
Proof. solve_decision. Defined.

(** [pod.Locality = locality] on a copy of the record. *)
Definition setLocality (locality : string) (pod : Info) : Info :=
  {| IP := IP pod; FullName := FullName pod; Labels := Labels pod;
     Locality := locality; ServiceAccountName := ServiceAccountName pod;
     NodeName := NodeName pod |}.

(** The calls made on the [Listener], in the order they are made. *)
Inductive Notification :=
  | PodAdded (info : Info)
  | PodUpdated (info : Info)
  | PodDeleted (info : Info).

(** [event.Kind]: the handlers switch on [Added], [Updated] and [Deleted];
    every other kind ([None], [FullSync], [Reset]) falls through the switch. *)
Inductive Kind := Added | Updated | Deleted | OtherKind.

(** [e.Source]: the collection the event comes from. *)
Inductive Source := K8SCoreV1Nodes | K8SCoreV1Pods | OtherSource.

(** [e.Entry.Item] is an interface value: either it holds a [*coreV1.Pod] or
    the type assertion on it fails (nil, or some other message). *)
Inductive Item := ItemPod (pod : coreV1.Pod) | ItemOther.

Record Metadata := { Name : string; MetaLabels : GoMap }.
Record Entry := { EntryMetadata : Metadata; EntryItem : Item }.
Record Event := { EventKind : Kind; EventSource : Source; EventEntry : Entry }.

Record cacheImpl := {
  pods : gmap string Info;
  nodeNameToLocality : gmap string string
}.

(** Go leaves the order in which [range] visits a map unspecified. A
    [MapRange] is one such order: any enumeration of the entries. *)
Record MapRange := {
  rangeOf :> gmap string Info → list (string * Info);
  rangeOf_perm : ∀ m, rangeOf m ≡ₚ map_to_list m
}.

(** The order [map_to_list] happens to produce. *)
Definition canonicalRange : MapRange :=
  {| rangeOf := map_to_list; rangeOf_perm := λ m, reflexivity (map_to_list m) |}.

(** NewCache creates a cache *)
Definition NewCache : cacheImpl := {| pods := ∅; nodeNameToLocality := ∅ |}.

(** GetPodByIP looks up and returns pod info based on ip. *)
Definition GetPodByIP (pc : cacheImpl) (ip : string) : option Info := pods pc !! ip.

Definition getLocality (region zone : string) : string :=
  if decide (region = "" ∧ zone = "") then "" else region +:+ "/" +:+ zone.

Definition updatePod (pod : Info) (pc : cacheImpl) : cacheImpl * list Notification :=
  let prev := pods pc !! IP pod in
  if decide (prev = Some pod) then (pc, [])
  else
    let pc' := {| pods := <[IP pod := pod]> (pods pc);
                  nodeNameToLocality := nodeNameToLocality pc |} in
    match prev with
    | Some _ => (pc', [PodUpdated pod])
    | None => (pc', [PodAdded pod])
    end.

Definition deletePod (ip : string) (pc : cacheImpl) : cacheImpl * list Notification :=
  match pods pc !! ip with
  | Some pod =>
      ({| pods := delete ip (pods pc); nodeNameToLocality := nodeNameToLocality pc |},
       [PodDeleted pod])
  | None => (pc, [])
  end.

(** One iteration of the loop of [updatePodLocality]: the accumulator is the
    map being written and [updatedPods]. *)
Definition localityStep (nodeName locality : string)
    (acc : gmap string Info * list Info) (kv : string * Info)
    : gmap string Info * list Info :=
  if decide (NodeName kv.2 = nodeName) then
    let pod := setLocality locality kv.2 in
    (<[kv.1 := pod]> acc.1, acc.2 ++ [pod])
  else acc.

Definition updatePodLocality (r : MapRange) (nodeName locality : string)
    (pc : cacheImpl) : cacheImpl * list Notification :=
  let acc := foldl (localityStep nodeName locality) (pods pc, []) (r (pods pc)) in
  ({| pods := acc.1; nodeNameToLocality := nodeNameToLocality pc |},
   PodUpdated <$> acc.2).

(** The brute-force lookup of [handlePod]: the key of the first visited
    record with the given name, the empty string when there is none. *)
Fixpoint lookupByName (name : string) (l : list (string * Info)) : string :=
  match l with
  | [] => ""
  | (podIP, info) :: l' =>
      if decide (FullName info = name) then podIP else lookupByName name l'
  end.

Section handlers.
(** Two helpers of other packages, taken as they are:
    [resource.Name.InterpretAsNamespaceAndName] and
    [spiffe.MustGenSpiffeURI]. *)
Variable InterpretAsNamespaceAndName : string → string * string.
Variable MustGenSpiffeURI : string → string → string.

(** kubeToIstioServiceAccount converts a K8s service account to an Istio
    service account *)
Definition kubeToIstioServiceAccount (saname ns : string) : string :=
  MustGenSpiffeURI ns saname.

Definition handleNode (r : MapRange) (pc : cacheImpl) (e : Event)
    : cacheImpl * list Notification :=
  let nodeName := (InterpretAsNamespaceAndName (Name (EntryMetadata (EventEntry e)))).2 in
  match EventKind e with
  | Added | Updated =>
      let labels := MetaLabels (EntryMetadata (EventEntry e)) in
      let region := goIndex labels LabelZoneRegion in
      let zone := goIndex labels LabelZoneFailureDomain in
      let newLocality := getLocality region zone in
      let oldLocality := default "" (nodeNameToLocality pc !! nodeName) in
      if decide (newLocality = oldLocality) then (pc, [])
      else
        updatePodLocality r nodeName newLocality
          {| pods := pods pc;
             nodeNameToLocality := <[nodeName := getLocality region zone]> (nodeNameToLocality pc) |}
  | Deleted =>
      match nodeNameToLocality pc !! nodeName with
      | Some _ =>
          updatePodLocality r nodeName ""
            {| pods := pods pc;
               nodeNameToLocality := delete nodeName (nodeNameToLocality pc) |}
      | None => (pc, [])
      end
  | OtherKind => (pc, [])
  end.

(** [None] is the panic of the unchecked type assertion
    [e.Entry.Item.( *coreV1.Pod)]. *)
Definition handlePod (r : MapRange) (pc : cacheImpl) (e : Event)
    : option (cacheImpl * list Notification) :=
  match EventKind e with
  | Added | Updated =>
      match EntryItem (EventEntry e) with
      | ItemOther => None
      | ItemPod pod =>
          let ip := coreV1.PodIP (coreV1.Status pod) in
          if decide (ip = "") then Some (pc, [])
          else if decide (coreV1.Phase (coreV1.Status pod) = coreV1.PodPending
                          ∨ coreV1.Phase (coreV1.Status pod) = coreV1.PodRunning) then
            let nodeName := coreV1.NodeName (coreV1.Spec pod) in
            let locality := default "" (nodeNameToLocality pc !! nodeName) in
            let serviceAccountName :=
              kubeToIstioServiceAccount
                (coreV1.ServiceAccountName (coreV1.Spec pod)) (coreV1.Namespace pod) in
            Some (updatePod
                    {| IP := ip;
                       FullName := Name (EntryMetadata (EventEntry e));
                       NodeName := nodeName;
                       Locality := locality;
                       Labels := coreV1.Labels pod;
                       ServiceAccountName := serviceAccountName |} pc)
          else Some (deletePod ip pc)
      end
  | Deleted =>
      let ip :=
        match EntryItem (EventEntry e) with
        | ItemPod pod => coreV1.PodIP (coreV1.Status pod)
        | ItemOther => lookupByName (Name (EntryMetadata (EventEntry e))) (r (pods pc))
        end in
      Some (deletePod ip pc)
  | OtherKind => Some (pc, [])
  end.

(** Handle implements event.Handler *)
Definition Handle (r : MapRange) (pc : cacheImpl) (e : Event)
    : option (cacheImpl * list Notification) :=
  match EventSource e with
  | K8SCoreV1Nodes => Some (handleNode r pc e)
  | K8SCoreV1Pods => handlePod r pc e
  | OtherSource => Some (pc, [])
  end.

(** A run of the handler over a sequence of events, each with the order its
    [range] loops happen to take; the notifications are concatenated. *)
Fixpoint HandleAll (es : list (MapRange * Event)) (pc : cacheImpl)
    : option (cacheImpl * list Notification) :=
  match es with
  | [] => Some (pc, [])
  | (r, e) :: es' =>
      match Handle r pc e with
      | None => None
      | Some (pc', ns) =>
          match HandleAll es' pc' with
          | None => None
          | Some (pc'', ns') => Some (pc'', ns ++ ns')
          end
      end
  end.
(** ** Properties *)

(** What [updatePodLocality] does to one record. *)
Definition relocate (nodeName locality : string) (pod : Info) : Info :=
  if decide (NodeName pod = nodeName) then setLocality locality pod else pod.

(** The records bound to a node, as the map enumerates them. *)
Definition podsOnNode (nodeName : string) (m : gmap string Info) : list Info :=
  filter (λ pod, NodeName pod = nodeName) (map_to_list m).*2.

(** The record is the old one in every field but the locality. *)
Definition sameButLocality (old new : Info) : Prop :=
  IP new = IP old ∧ FullName new = FullName old ∧ Labels new = Labels old ∧
  ServiceAccountName new = ServiceAccountName old ∧ NodeName new = NodeName old.

(** A locality has been propagated to the records of a node, from the
    records [m] to the records [m'] with the notifications [ns]: the same IPs
    are stored; the record under an IP is the old one but for its locality,
    which is the new locality when the record is bound to the node and the
    old one otherwise; and the notifications are one [PodUpdated] for each
    old record bound to the node, in some order, each with that record under
    the new locality. *)
Definition propagated (nodeName locality : string) (m m' : gmap string Info)
    (ns : list Notification) : Prop :=
  (∀ ip,
     match m !! ip with
     | Some old =>
         ∃ new, m' !! ip = Some new ∧ sameButLocality old new ∧
                Locality new = if decide (NodeName old = nodeName) then locality
                               else Locality old
     | None => m' !! ip = None
     end) ∧
  ∃ olds infos,
    olds ≡ₚ podsOnNode nodeName m ∧ ns = PodUpdated <$> infos ∧
    Forall2 (λ old info, sameButLocality old info ∧ Locality info = locality) olds infos.

(** [pod.Locality] agrees with the node index. *)
Definition consistent (pc : cacheImpl) : Prop :=
  ∀ ip pod, pods pc !! ip = Some pod →
    Locality pod = default "" (nodeNameToLocality pc !! NodeName pod).

(** Records are stored under their own, non-empty, IP. *)
Definition keyed (pc : cacheImpl) : Prop :=
  ∀ ip pod, pods pc !! ip = Some pod → IP pod = ip ∧ ip ≠ "".

Lemma foldl_localityStep_updated nodeName locality l acc :
  (foldl (localityStep nodeName locality) acc l).2
  = acc.2 ++ (setLocality locality <$> filter (λ pod, NodeName pod = nodeName) l.*2).
Proof.
  revert acc. induction l as [|[ip pod] l IH]; intros acc; simpl.
  - by rewrite app_nil_r.
  - rewrite IH. unfold localityStep; simpl.
    rewrite filter_cons; simpl.
    destruct (decide (NodeName pod = nodeName)); simpl; [|done].
    by rewrite <- app_assoc.
Qed.

Lemma foldl_localityStep_lookup nodeName locality l acc k :
  NoDup l.*1 →
  (foldl (localityStep nodeName locality) acc l).1 !! k
  = match (list_to_map l : gmap string Info) !! k with
    | Some pod =>
        if decide (NodeName pod = nodeName) then Some (setLocality locality pod)
        else acc.1 !! k
    | None => acc.1 !! k
    end.
Proof.
  revert acc. induction l as [|[ip pod] l IH]; intros acc Hnd; simpl.
  - by rewrite lookup_empty.
  - apply NoDup_cons in Hnd as [Hip Hnd]. rewrite IH by done.
    destruct (decide (k = ip)) as [->|Hne].
    + rewrite lookup_insert_eq.
      rewrite (not_elem_of_list_to_map_1 _ ip) by done.
      unfold localityStep; simpl.
      destruct (decide (NodeName pod = nodeName)); simpl; [|done].
      by rewrite lookup_insert_eq.
    + rewrite lookup_insert_ne by done.
      assert ((localityStep nodeName locality acc (ip, pod)).1 !! k = acc.1 !! k) as ->; [|done].
      unfold localityStep; simpl.
      destruct (decide (NodeName pod = nodeName)); simpl; [|done].
      by rewrite lookup_insert_ne.
Qed.

Lemma updatePodLocality_pods r nodeName locality pc :
  pods (updatePodLocality r nodeName locality pc).1
  = relocate nodeName locality <$> pods pc.
Proof.
  unfold updatePodLocality; simpl. apply map_eq; intros k.
  pose proof (rangeOf_perm r (pods pc)) as Hperm.
  assert (NoDup (r (pods pc)).*1) as Hnd.
  { rewrite Hperm. apply NoDup_fst_map_to_list. }
  rewrite foldl_localityStep_lookup by done. simpl.
  assert ((list_to_map (r (pods pc)) : gmap string Info) = pods pc) as ->.
  { rewrite (list_to_map_proper _ _ Hnd Hperm). apply list_to_map_to_list. }
  rewrite lookup_fmap. unfold relocate.
  destruct (pods pc !! k) as [pod|]; simpl; [|done].
  by destruct (decide (NodeName pod = nodeName)).
Qed.

Lemma updatePodLocality_index r nodeName locality pc :
  nodeNameToLocality (updatePodLocality r nodeName locality pc).1
  = nodeNameToLocality pc.
Proof. done. Qed.

Lemma updatePodLocality_notified r nodeName locality pc :
  (updatePodLocality r nodeName locality pc).2
  ≡ₚ PodUpdated <$> (setLocality locality <$> podsOnNode nodeName (pods pc)).
Proof.
  unfold updatePodLocality, podsOnNode; simpl.
  rewrite foldl_localityStep_updated; simpl.
  by rewrite (rangeOf_perm r (pods pc)).
Qed.

Lemma elem_of_podsOnNode nodeName m pod :
  pod ∈ podsOnNode nodeName m ↔ NodeName pod = nodeName ∧ ∃ ip, m !! ip = Some pod.
Proof.
  unfold podsOnNode. rewrite list_elem_of_filter, list_elem_of_fmap.
  split.
  - intros [Hn [[ip pod'] [-> Hin]]]. apply elem_of_map_to_list in Hin. eauto.
  - intros [Hn [ip Hin]]. split; [done|]. exists (ip, pod). split; [done|].
    by apply elem_of_map_to_list.
Qed.
(** The record [handlePod] builds for a pod that has an IP. *)
Definition infoOf (pc : cacheImpl) (e : Event) (pod : coreV1.Pod) : Info :=
  {| IP := coreV1.PodIP (coreV1.Status pod);
     FullName := Name (EntryMetadata (EventEntry e));
     NodeName := coreV1.NodeName (coreV1.Spec pod);
     Locality := default "" (nodeNameToLocality pc !! coreV1.NodeName (coreV1.Spec pod));
     Labels := coreV1.Labels pod;
     ServiceAccountName :=
       MustGenSpiffeURI (coreV1.Namespace pod) (coreV1.ServiceAccountName (coreV1.Spec pod)) |}.

(** The cache with [pod] stored under its IP. *)
Definition stored (pod : Info) (pc : cacheImpl) : cacheImpl :=
  {| pods := <[IP pod := pod]> (pods pc); nodeNameToLocality := nodeNameToLocality pc |}.

(** The cache without the record under [ip]. *)
Definition removed (ip : string) (pc : cacheImpl) : cacheImpl :=
  {| pods := delete ip (pods pc); nodeNameToLocality := nodeNameToLocality pc |}.

(** A cache state the handler can be in: the result of some run from the
    new cache. *)
Definition reachable (pc : cacheImpl) : Prop :=
  ∃ es ns, HandleAll es NewCache = Some (pc, ns).

Lemma updatePod_same pod pc :
  pods pc !! IP pod = Some pod → updatePod pod pc = (pc, []).
Proof. intros H. unfold updatePod. by rewrite decide_True. Qed.

Lemma updatePod_new pod pc :
  pods pc !! IP pod = None → updatePod pod pc = (stored pod pc, [PodAdded pod]).
Proof. intros H. unfold updatePod. rewrite H. by rewrite decide_False. Qed.

Lemma updatePod_changed pod prev pc :
  pods pc !! IP pod = Some prev → prev ≠ pod →
  updatePod pod pc = (stored pod pc, [PodUpdated pod]).
Proof.
  intros H Hne. unfold updatePod. rewrite H.
  rewrite decide_False; [done|congruence].
Qed.

Lemma updatePod_lookup pod pc :
  pods (updatePod pod pc).1 !! IP pod = Some pod.
Proof.
  unfold updatePod. destruct (decide (pods pc !! IP pod = Some pod)) as [Heq|Hne]; [done|].
  destruct (pods pc !! IP pod); simpl; by rewrite lookup_insert_eq.
Qed.

Lemma handlePod_upsert r pc e pod :
  EventKind e = Added ∨ EventKind e = Updated →
  EntryItem (EventEntry e) = ItemPod pod →
  coreV1.PodIP (coreV1.Status pod) ≠ "" →
  coreV1.Phase (coreV1.Status pod) = coreV1.PodPending
    ∨ coreV1.Phase (coreV1.Status pod) = coreV1.PodRunning →
  handlePod r pc e = Some (updatePod (infoOf pc e pod) pc).
Proof.
  intros Hk Hitem Hip Hphase. unfold handlePod. rewrite Hitem.
  rewrite (decide_False (P := _ = "")) by done.
  rewrite decide_True by done.
  by destruct Hk as [-> | ->].
Qed.

Lemma HandleAll_app es1 es2 pc pc1 ns1 :
  HandleAll es1 pc = Some (pc1, ns1) →
  HandleAll (es1 ++ es2) pc
  = (λ '(pc2, ns2), (pc2, ns1 ++ ns2)) <$> HandleAll es2 pc1.
Proof.
  revert pc pc1 ns1. induction es1 as [|[r e] es1 IH]; intros pc pc1 ns1; simpl.
  - intros [= <- <-]. by destruct (HandleAll es2 pc) as [[??]|].
  - destruct (Handle r pc e) as [[pc' ns]|]; [|done].
    destruct (HandleAll es1 pc') as [[pc'' ns']|] eqn:Hrun; [|done].
    intros [= <- <-]. rewrite (IH _ _ _ Hrun).
    destruct (HandleAll es2 pc'') as [[??]|]; simpl; [|done].
    by rewrite app_assoc.
Qed.

(** *** Invariants of the handlers *)

Lemma updatePod_consistent pod pc :
  consistent pc →
  Locality pod = default "" (nodeNameToLocality pc !! NodeName pod) →
  consistent (updatePod pod pc).1.
Proof.
  intros Hc Hpod. unfold updatePod.
  destruct (decide (pods pc !! IP pod = Some pod)); [done|].
  assert (consistent (stored pod pc)) as Hs.
  { intros ip p; simpl. destruct (decide (ip = IP pod)) as [->|Hne].
    - rewrite lookup_insert_eq. by intros [= <-].
    - rewrite lookup_insert_ne by done. apply (Hc ip). }
  by destruct (pods pc !! IP pod).
Qed.

Lemma deletePod_consistent ip pc : consistent pc → consistent (deletePod ip pc).1.
Proof.
  intros Hc. unfold deletePod. destruct (pods pc !! ip); [|done].
  intros ip' p; simpl. intros Hl. apply lookup_delete_Some in Hl as [_ Hl].
  by apply (Hc ip').
Qed.

Lemma updatePodLocality_consistent r nodeName locality pods0 index index' :
  consistent {| pods := pods0; nodeNameToLocality := index |} →
  default "" (index' !! nodeName) = locality →
  (∀ n, n ≠ nodeName → index' !! n = index !! n) →
  consistent (updatePodLocality r nodeName locality
                {| pods := pods0; nodeNameToLocality := index' |}).1.
Proof.
  intros Hc Hn Hother ip pod'.
  rewrite updatePodLocality_pods, updatePodLocality_index; simpl.
  rewrite lookup_fmap. destruct (pods0 !! ip) as [pod|] eqn:Hl; [|done].
  simpl. intros [= <-]. unfold relocate.
  destruct (decide (NodeName pod = nodeName)) as [Heq|Hne]; simpl.
  - by rewrite Heq, Hn.
  - rewrite Hother by done. by apply (Hc ip).
Qed.

Lemma handleNode_consistent r pc e : consistent pc → consistent (handleNode r pc e).1.
Proof.
  intros Hc. unfold handleNode.
  set (nodeName := (InterpretAsNamespaceAndName _).2).
  assert (consistent {| pods := pods pc; nodeNameToLocality := nodeNameToLocality pc |})
    as Hc' by (by destruct pc).
  destruct (EventKind e); [| |destruct (nodeNameToLocality pc !! nodeName) eqn:Hn|];
    try done; try case_decide; try done.
  1,2: apply (updatePodLocality_consistent _ _ _ _ _ _ Hc');
    [by rewrite lookup_insert_eq|by intros; rewrite lookup_insert_ne].
  apply (updatePodLocality_consistent _ _ _ _ _ _ Hc');
    [by rewrite lookup_delete_eq|by intros; rewrite lookup_delete_ne].
Qed.

(** From [Some result = Some (pc', ns)], name the state. *)
Ltac state_of_result :=
  let H := fresh in
  intros H; apply (inj Some) in H; apply (f_equal fst) in H; simpl in H;
  match type of H with _ = ?pc' => subst pc' end.

Lemma handlePod_consistent r pc e pc' ns :
  consistent pc → handlePod r pc e = Some (pc', ns) → consistent pc'.
Proof.
  intros Hc. unfold handlePod.
  assert (∀ ip, consistent (deletePod ip pc).1) as Hdel
    by (intros; by apply deletePod_consistent).
  assert (∀ pod, consistent (updatePod (infoOf pc e pod) pc).1) as Hupd
    by (intros; by apply updatePod_consistent).
  destruct (EventKind e).
  1,2: destruct (EntryItem (EventEntry e)) as [pod|]; [|done];
    repeat case_decide; state_of_result;
    first [done | apply (Hupd pod) | apply Hdel].
  - state_of_result. apply Hdel.
  - by state_of_result.
Qed.

Lemma Handle_consistent r pc e pc' ns :
  consistent pc → Handle r pc e = Some (pc', ns) → consistent pc'.
Proof.
  intros Hc. unfold Handle. destruct (EventSource e).
  - state_of_result. by apply handleNode_consistent.
  - by apply handlePod_consistent.
  - by state_of_result.
Qed.

Lemma updatePod_keyed pod pc : keyed pc → IP pod ≠ "" → keyed (updatePod pod pc).1.
Proof.
  intros Hk Hip. unfold updatePod.
  destruct (decide (pods pc !! IP pod = Some pod)); [done|].
  assert (keyed (stored pod pc)) as Hs.
  { intros ip p; simpl. destruct (decide (ip = IP pod)) as [->|Hne].
    - rewrite lookup_insert_eq. by intros [= <-].
    - rewrite lookup_insert_ne by done. apply (Hk ip). }
  by destruct (pods pc !! IP pod).
Qed.

Lemma deletePod_keyed ip pc : keyed pc → keyed (deletePod ip pc).1.
Proof.
  intros Hk. unfold deletePod. destruct (pods pc !! ip); [|done].
  intros ip' p; simpl. intros Hl. apply lookup_delete_Some in Hl as [_ Hl].
  by apply (Hk ip').
Qed.

Lemma updatePodLocality_keyed r nodeName locality pc :
  keyed pc → keyed (updatePodLocality r nodeName locality pc).1.
Proof.
  intros Hk ip pod'. rewrite updatePodLocality_pods, lookup_fmap.
  destruct (pods pc !! ip) as [pod|] eqn:Hl; [|done].
  simpl. intros [= <-]. destruct (Hk ip pod Hl) as [Hip Hne].
  split; [|done]. unfold relocate. by case_decide.
Qed.

Lemma Handle_keyed r pc e pc' ns :
  keyed pc → Handle r pc e = Some (pc', ns) → keyed pc'.
Proof.
  intros Hk. unfold Handle. destruct (EventSource e).
  - state_of_result. unfold handleNode.
    repeat (case_match || case_decide); try done;
      by apply updatePodLocality_keyed.
  - unfold handlePod.
    destruct (EventKind e).
    1,2: destruct (EntryItem (EventEntry e)) as [pod|]; [|done];
      repeat case_decide; state_of_result;
      first [done | by apply updatePod_keyed | by apply deletePod_keyed].
    + state_of_result. by apply deletePod_keyed.
    + by state_of_result.
  - by state_of_result.
Qed.

Lemma HandleAll_invariant (P : cacheImpl → Prop) :
  (∀ r pc e pc' ns, P pc → Handle r pc e = Some (pc', ns) → P pc') →
  ∀ es pc pc' ns, P pc → HandleAll es pc = Some (pc', ns) → P pc'.
Proof.
  intros Hstep es. induction es as [|[r e] es IH]; intros pc pc' ns HP; simpl.
  - by intros [= <- <-].
  - destruct (Handle r pc e) as [[pc1 ns1]|] eqn:Hh; [|done].
    destruct (HandleAll es pc1) as [[pc2 ns2]|] eqn:Hrun; [|done].
    intros [= <- <-]. eapply IH; [|done]. by eapply Hstep.
Qed.

Lemma reachable_keyed pc : reachable pc → keyed pc.
Proof.
  intros (es & ns & Hrun).
  eapply (HandleAll_invariant keyed Handle_keyed); [|done]. by intros ??.
Qed.
Lemma lookupByName_found name l :
  (∃ ip pod, (ip, pod) ∈ l ∧ FullName pod = name) →
  ∃ pod, (lookupByName name l, pod) ∈ l ∧ FullName pod = name.
Proof.
  induction l as [|[ip0 pod0] l IH]; intros (ip & pod & Hin & Hname); simpl.
  - by apply elem_of_nil in Hin.
  - destruct (decide (FullName pod0 = name)) as [Heq|Hne].
    + exists pod0. split; [left|done].
    + apply elem_of_cons in Hin as [[= -> ->]|Hin]; [done|].
      destruct IH as (pod' & Hin' & Hname'); [by eauto|].
      exists pod'. split; [by right|done].
Qed.

Lemma lookupByName_none name l :
  (∀ ip pod, (ip, pod) ∈ l → FullName pod ≠ name) → lookupByName name l = "".
Proof.
  induction l as [|[ip0 pod0] l IH]; intros Hall; simpl; [done|].
  rewrite decide_False by (apply (Hall ip0); left).
  apply IH. intros ip pod Hin. apply (Hall ip). by right.
Qed.

Lemma elem_of_rangeOf (r : MapRange) m ip pod : (ip, pod) ∈ r m ↔ m !! ip = Some pod.
Proof. rewrite (rangeOf_perm r m). apply elem_of_map_to_list. Qed.

Lemma updatePodLocality_propagated r nodeName locality pc :
  propagated nodeName locality (pods pc)
    (pods (updatePodLocality r nodeName locality pc).1)
    (updatePodLocality r nodeName locality pc).2.
Proof.
  split.
  - intros ip. rewrite updatePodLocality_pods, lookup_fmap.
    destruct (pods pc !! ip) as [old|]; simpl; [|done].
    eexists. split; [done|]. unfold relocate, sameButLocality.
    by case_decide.
  - exists (filter (λ pod, NodeName pod = nodeName) (r (pods pc)).*2),
      (setLocality locality <$> filter (λ pod, NodeName pod = nodeName) (r (pods pc)).*2).
    split; [|split].
    + unfold podsOnNode. by rewrite (rangeOf_perm r (pods pc)).
    + unfold updatePodLocality; simpl. by rewrite foldl_localityStep_updated.
    + apply Forall2_fmap_r, Forall_Forall2_diag, Forall_true. by intros old.
Qed.

(** *** The claims about the cache *)

(** C2. A node event of kind Added or Updated compares the locality computed
    from the region and zone labels ("region/zone", empty when both are
    empty) with the one stored for the node (the empty string when the node
    is not in the index). When they are equal nothing changes and nothing is
    notified. Otherwise the index holds the new locality for the node; the
    same IPs are stored, each with its old record but for the locality; the
    locality of every record bound to the node is the new locality, and that
    of every other record is as it was; and the notifications are exactly one
    [PodUpdated] per record bound to the node, in some order, each carrying
    that record with the new locality. *)
Theorem handleNode_locality r pc e :
  EventSource e = K8SCoreV1Nodes →
  EventKind e = Added ∨ EventKind e = Updated →
  let nodeName := (InterpretAsNamespaceAndName (Name (EntryMetadata (EventEntry e)))).2 in
  let region := goIndex (MetaLabels (EntryMetadata (EventEntry e))) LabelZoneRegion in
  let zone := goIndex (MetaLabels (EntryMetadata (EventEntry e))) LabelZoneFailureDomain in
  let locality := if decide (region = "" ∧ zone = "") then "" else region +:+ "/" +:+ zone in
  let old := default "" (nodeNameToLocality pc !! nodeName) in
  (locality = old → Handle r pc e = Some (pc, [])) ∧
  (locality ≠ old →
     ∃ pc' ns, Handle r pc e = Some (pc', ns) ∧
       nodeNameToLocality pc' = <[nodeName := locality]> (nodeNameToLocality pc) ∧
       (∀ ip,
          match pods pc !! ip with
          | Some pod =>
              ∃ pod', pods pc' !! ip = Some pod' ∧
                IP pod' = IP pod ∧ FullName pod' = FullName pod ∧
                Labels pod' = Labels pod ∧
                ServiceAccountName pod' = ServiceAccountName pod ∧
                NodeName pod' = NodeName pod ∧
                Locality pod' = if decide (NodeName pod = nodeName) then locality
                                else Locality pod
          | None => pods pc' !! ip = None
          end) ∧
       ∃ bound infos,
         bound ≡ₚ podsOnNode nodeName (pods pc) ∧
         ns = PodUpdated <$> infos ∧
         Forall2 (λ pod info, sameButLocality pod info ∧ Locality info = locality)
           bound infos).
Proof.
  intros Hsrc Hkind nodeName region zone locality old.
  unfold Handle. rewrite Hsrc.
  assert (handleNode r pc e
          = if decide (locality = old) then (pc, [])
            else updatePodLocality r nodeName locality
                   {| pods := pods pc;
                      nodeNameToLocality := <[nodeName := locality]> (nodeNameToLocality pc) |})
    as ->.
  { unfold handleNode. by destruct Hkind as [-> | ->]. }
  split; intros Hcmp.
  - by rewrite decide_True.
  - rewrite decide_False by done.
    match goal with |- context [Some ?res] => exists res.1, res.2 end.
    split; [f_equal; apply surjective_pairing|].
    split; [done|].
    match goal with |- context [updatePodLocality r nodeName locality ?pc0] =>
      destruct (updatePodLocality_propagated r nodeName locality pc0) as [Hrecords Hns]
    end.
    split; [|exact Hns].
    intros ip. specialize (Hrecords ip). simpl in Hrecords.
    destruct (pods pc !! ip) as [pod|]; [|done].
    destruct Hrecords as (pod' & Hl & (? & ? & ? & ? & ?) & Hloc). eauto 10.
Qed.

(** C5. Storing a record is idempotent. A record equal to the one stored
    under its IP changes nothing and notifies nothing. Any other record is
    stored and notified exactly once: [PodAdded] when the IP held no record,
    [PodUpdated] when it held a different one. Storing the same record a
    second time is always silent; so adding a record twice, by [updatePod]
    or by the same Added event handled twice, gives one [PodAdded] in all and
    one more stored record. *)
Theorem updatePod_idempotent pod pc :
  (pods pc !! IP pod = Some pod → updatePod pod pc = (pc, [])) ∧
  (pods pc !! IP pod = None → updatePod pod pc = (stored pod pc, [PodAdded pod])) ∧
  (∀ prev, pods pc !! IP pod = Some prev → prev ≠ pod →
     updatePod pod pc = (stored pod pc, [PodUpdated pod])) ∧
  updatePod pod (updatePod pod pc).1 = ((updatePod pod pc).1, []) ∧
  (pods pc !! IP pod = None →
     (updatePod pod pc).2 ++ (updatePod pod (updatePod pod pc).1).2 = [PodAdded pod] ∧
     pods (updatePod pod (updatePod pod pc).1).1 = <[IP pod := pod]> (pods pc) ∧
     size (pods (updatePod pod (updatePod pod pc).1).1) = S (size (pods pc))) ∧
  (∀ r1 r2 e p,
     EventSource e = K8SCoreV1Pods → EventKind e = Added →
     EntryItem (EventEntry e) = ItemPod p →
     coreV1.PodIP (coreV1.Status p) ≠ "" →
     coreV1.Phase (coreV1.Status p) = coreV1.PodPending
       ∨ coreV1.Phase (coreV1.Status p) = coreV1.PodRunning →
     pods pc !! coreV1.PodIP (coreV1.Status p) = None →
     HandleAll [(r1, e); (r2, e)] pc
     = Some (stored (infoOf pc e p) pc, [PodAdded (infoOf pc e p)])).
Proof.
  assert (updatePod pod (updatePod pod pc).1 = ((updatePod pod pc).1, [])) as Htwice.
  { apply updatePod_same, updatePod_lookup. }
  split; [exact (updatePod_same pod pc)|].
  split; [exact (updatePod_new pod pc)|].
  split; [exact (λ prev, updatePod_changed pod prev pc)|].
  split; [done|]. split.
  - intros Hnew. rewrite Htwice. rewrite updatePod_new by done. simpl.
    split; [done|]. split; [done|]. by apply map_size_insert_None.
  - intros r1 r2 e p Hsrc Hkind Hitem Hip Hphase Hnew. simpl.
    unfold Handle. rewrite Hsrc.
    rewrite (handlePod_upsert r1 pc e p) by auto.
    rewrite updatePod_new by done.
    rewrite (handlePod_upsert r2 _ e p) by auto.
    change (infoOf (stored (infoOf pc e p) pc) e p) with (infoOf pc e p).
    rewrite updatePod_same; [done|]. simpl. by rewrite lookup_insert_eq.
Qed.

(** C7. In every state the cache reaches from the new cache, by any sequence
    of events, each stored record carries the locality the node index holds
    for the record's node, and the empty locality when the index does not
    hold the node. *)
Theorem cache_consistency es pc ns :
  HandleAll es NewCache = Some (pc, ns) →
  ∀ ip pod, pods pc !! ip = Some pod →
    match nodeNameToLocality pc !! NodeName pod with
    | Some locality => Locality pod = locality
    | None => Locality pod = ""
    end.
Proof.
  intros Hrun ip pod Hl.
  assert (consistent pc) as Hc.
  { eapply (HandleAll_invariant consistent Handle_consistent); [|done]. by intros ??. }
  specialize (Hc ip pod Hl). by destruct (nodeNameToLocality pc !! NodeName pod).
Qed.

(** C8 (amended). An Added or Updated pod event whose pod has no IP is
    dropped: the cache is unchanged and nothing is notified. When the next
    event for the pod carries an IP the cache does not hold and the pod is
    Pending or Running, the record is stored under that IP and notified by
    one [PodAdded]. *)
Theorem handlePod_without_ip r pc e pod :
  EventSource e = K8SCoreV1Pods →
  EventKind e = Added ∨ EventKind e = Updated →
  EntryItem (EventEntry e) = ItemPod pod →
  coreV1.PodIP (coreV1.Status pod) = "" →
  Handle r pc e = Some (pc, []) ∧
  ∀ r' e' pod',
    EventSource e' = K8SCoreV1Pods →
    EventKind e' = Added ∨ EventKind e' = Updated →
    EntryItem (EventEntry e') = ItemPod pod' →
    coreV1.PodIP (coreV1.Status pod') ≠ "" →
    pods pc !! coreV1.PodIP (coreV1.Status pod') = None →
    coreV1.Phase (coreV1.Status pod') = coreV1.PodPending
      ∨ coreV1.Phase (coreV1.Status pod') = coreV1.PodRunning →
    HandleAll [(r, e); (r', e')] pc
    = Some (stored (infoOf pc e' pod') pc, [PodAdded (infoOf pc e' pod')])
    ∧ GetPodByIP (stored (infoOf pc e' pod') pc) (coreV1.PodIP (coreV1.Status pod'))
      = Some (infoOf pc e' pod').
Proof.
  intros Hsrc Hkind Hitem Hip.
  assert (Handle r pc e = Some (pc, [])) as Hdrop.
  { unfold Handle, handlePod. rewrite Hsrc, Hitem.
    rewrite decide_True by done. by destruct Hkind as [-> | ->]. }
  split; [done|].
  intros r' e' pod' Hsrc' Hkind' Hitem' Hip' Hnew Hphase. simpl.
  rewrite Hdrop. unfold Handle. rewrite Hsrc'.
  rewrite (handlePod_upsert r' pc e' pod') by auto.
  rewrite updatePod_new by done. split; [done|].
  unfold GetPodByIP; simpl. by rewrite lookup_insert_eq.
Qed.

(** C9 (amended). A Deleted pod event whose item is not a pod (the resource
    was not available, or failed parsing) is looked up by name among the
    stored records. When some record has the name of the event, one such
    record is deleted and notified by one [PodDeleted]; when none has, the
    cache is unchanged and nothing is notified. *)
Theorem delete_by_name r pc e :
  reachable pc →
  EventSource e = K8SCoreV1Pods →
  EventKind e = Deleted →
  EntryItem (EventEntry e) = ItemOther →
  let name := Name (EntryMetadata (EventEntry e)) in
  ((∃ ip pod, pods pc !! ip = Some pod ∧ FullName pod = name) →
     ∃ ip pod, pods pc !! ip = Some pod ∧ FullName pod = name ∧
       Handle r pc e = Some (removed ip pc, [PodDeleted pod])) ∧
  ((∀ ip pod, pods pc !! ip = Some pod → FullName pod ≠ name) →
     Handle r pc e = Some (pc, [])).
Proof.
  intros Hreach Hsrc Hkind Hitem name.
  unfold Handle, handlePod. rewrite Hsrc, Hkind, Hitem. fold name.
  split.
  - intros (ip & pod & Hl & Hname).
    destruct (lookupByName_found name (r (pods pc))) as (pod' & Hin & Hname').
    { exists ip, pod. by rewrite elem_of_rangeOf. }
    apply elem_of_rangeOf in Hin.
    exists (lookupByName name (r (pods pc))), pod'.
    split; [done|]. split; [done|].
    unfold deletePod. by rewrite Hin.
  - intros Hnone. rewrite lookupByName_none.
    + unfold deletePod.
      destruct (pods pc !! "") as [pod|] eqn:Hl; [|done].
      by destruct (reachable_keyed pc Hreach "" pod Hl).
    + intros ip pod Hin. apply (Hnone ip). by apply (elem_of_rangeOf r).
Qed.
(** *** Further properties of the cache *)

(** A Deleted node event for a node that is not in the index changes nothing
    and notifies nothing. For a node in the index, the node leaves the index;
    the same IPs are stored, each with its old record but for the locality;
    the locality of every record bound to the node is empty, and that of
    every other record is as it was; and the notifications are exactly one
    [PodUpdated] per record bound to the node, in some order, each carrying
    that record with the empty locality. *)
Theorem handleNode_deleted r pc e :
  EventSource e = K8SCoreV1Nodes →
  EventKind e = Deleted →
  let nodeName := (InterpretAsNamespaceAndName (Name (EntryMetadata (EventEntry e)))).2 in
  match nodeNameToLocality pc !! nodeName with
  | None => Handle r pc e = Some (pc, [])
  | Some _ =>
      ∃ pc' ns, Handle r pc e = Some (pc', ns) ∧
        nodeNameToLocality pc' = delete nodeName (nodeNameToLocality pc) ∧
        (∀ ip,
           match pods pc !! ip with
           | Some pod =>
               ∃ pod', pods pc' !! ip = Some pod' ∧
                 IP pod' = IP pod ∧ FullName pod' = FullName pod ∧
                 Labels pod' = Labels pod ∧
                 ServiceAccountName pod' = ServiceAccountName pod ∧
                 NodeName pod' = NodeName pod ∧
                 Locality pod' = if decide (NodeName pod = nodeName) then ""
                                 else Locality pod
           | None => pods pc' !! ip = None
           end) ∧
        ∃ bound infos,
          bound ≡ₚ podsOnNode nodeName (pods pc) ∧
          ns = PodUpdated <$> infos ∧
          Forall2 (λ pod info, sameButLocality pod info ∧ Locality info = "") bound infos
  end.
Proof.
  intros Hsrc Hkind nodeName. unfold Handle, handleNode. rewrite Hsrc, Hkind.
  fold nodeName. destruct (nodeNameToLocality pc !! nodeName); [|done].
  match goal with |- context [Some ?res] => exists res.1, res.2 end.
  split; [f_equal; apply surjective_pairing|].
  split; [done|].
  match goal with |- context [updatePodLocality r nodeName "" ?pc0] =>
    destruct (updatePodLocality_propagated r nodeName "" pc0) as [Hrecords Hns]
  end.
  split; [|exact Hns].
  intros ip. specialize (Hrecords ip). simpl in Hrecords.
  destruct (pods pc !! ip) as [pod|]; [|done].
  destruct Hrecords as (pod' & Hl & (? & ? & ? & ? & ?) & Hloc). eauto 10.
Qed.

(** In every state the cache reaches, a record is stored under its own IP,
    which is not empty: there is one record per IP. *)
Theorem records_keyed_by_ip es pc ns :
  HandleAll es NewCache = Some (pc, ns) →
  ∀ ip pod, pods pc !! ip = Some pod → IP pod = ip ∧ ip ≠ "".
Proof. intros Hrun. apply reachable_keyed. by exists es, ns. Qed.

(** *** What a listener can rely on *)

(** A listener that keeps its own copy of the records. *)
Definition applyNotification (m : gmap string Info) (n : Notification) : gmap string Info :=
  match n with
  | PodAdded info | PodUpdated info => <[IP info := info]> m
  | PodDeleted info => delete (IP info) m
  end.

(** What a notification says of the cache before and after the event. *)
Definition faithful (pc pc' : cacheImpl) (n : Notification) : Prop :=
  match n with
  | PodAdded info =>
      GetPodByIP pc (IP info) = None ∧ GetPodByIP pc' (IP info) = Some info
  | PodUpdated info =>
      is_Some (GetPodByIP pc (IP info)) ∧ GetPodByIP pc' (IP info) = Some info
  | PodDeleted info =>
      GetPodByIP pc (IP info) = Some info ∧ GetPodByIP pc' (IP info) = None
  end.

(** The four ways an event ends: nothing is done, a record is stored, a
    record is deleted, or the locality of a node is propagated. *)
Lemma Handle_cases r pc e pc' ns :
  Handle r pc e = Some (pc', ns) →
  (pc', ns) = (pc, []) ∨
  (∃ pod, IP pod ≠ "" ∧ (pc', ns) = updatePod pod pc) ∨
  (∃ ip, (pc', ns) = deletePod ip pc) ∨
  (∃ nodeName locality index,
     (pc', ns) = updatePodLocality r nodeName locality
                   {| pods := pods pc; nodeNameToLocality := index |}).
Proof.
  assert (∀ res : cacheImpl * list Notification,
            Some res = Some (pc', ns) → (pc', ns) = res) as Hres by (by intros ? [= ->]).
  unfold Handle. destruct (EventSource e).
  - intros ->%Hres. unfold handleNode.
    repeat (case_match || case_decide); eauto 10.
  - unfold handlePod. destruct (EventKind e).
    1,2: destruct (EntryItem (EventEntry e)) as [pod|]; [|done];
      repeat case_decide; intros ->%Hres;
      [ by left
      | right; left; eexists; split; [|reflexivity]; done
      | right; right; left; by eexists ].
    + intros ->%Hres. eauto 10.
    + intros ->%Hres. eauto.
  - intros ->%Hres. eauto.
Qed.

Lemma foldl_insert_lookup (l : list Info) (m0 target : gmap string Info) k :
  (∀ info, info ∈ l → target !! IP info = Some info) →
  foldl (λ m info, <[IP info := info]> m) m0 l !! k
  = if decide (k ∈ IP <$> l) then target !! k else m0 !! k.
Proof.
  intros Hl. induction l as [|info l IH] using rev_ind.
  - destruct (decide (k ∈ IP <$> [])) as [Hin|]; [by apply elem_of_nil in Hin|done].
  - rewrite foldl_app, fmap_app. cbn [foldl fmap list_fmap].
    destruct (decide (k = IP info)) as [->|Hne].
    + rewrite lookup_insert_eq.
      rewrite decide_True by (apply elem_of_app; right; by left).
      symmetry. apply Hl. apply elem_of_app. right. by left.
    + rewrite lookup_insert_ne by done.
      rewrite IH by (intros; apply Hl, elem_of_app; by left).
      destruct (decide (k ∈ IP <$> l)) as [Hin|Hin].
      * by rewrite decide_True by (apply elem_of_app; by left).
      * rewrite decide_False; [done|].
        intros [?|Hk%list_elem_of_singleton]%elem_of_app; done.
Qed.

Lemma updatePodLocality_updated r nodeName locality pc :
  (updatePodLocality r nodeName locality pc).2
  = PodUpdated <$> (setLocality locality
                      <$> filter (λ pod, NodeName pod = nodeName) (r (pods pc)).*2).
Proof.
  unfold updatePodLocality; simpl. by rewrite foldl_localityStep_updated.
Qed.

Lemma elem_of_updated (r : MapRange) nodeName locality (m : gmap string Info) info :
  info ∈ setLocality locality <$> filter (λ pod, NodeName pod = nodeName) (r m).*2 ↔
  ∃ ip pod, m !! ip = Some pod ∧ NodeName pod = nodeName ∧ info = setLocality locality pod.
Proof.
  rewrite list_elem_of_fmap. split.
  - intros (pod & -> & Hin). apply list_elem_of_filter in Hin as [Hn Hin].
    apply list_elem_of_fmap in Hin as ([ip pod'] & -> & Hin).
    apply elem_of_rangeOf in Hin. eauto.
  - intros (ip & pod & Hl & Hn & ->). exists pod. split; [done|].
    apply list_elem_of_filter. split; [done|].
    apply list_elem_of_fmap. exists (ip, pod). split; [done|]. by apply elem_of_rangeOf.
Qed.

Lemma updatePodLocality_replay r nodeName locality pc :
  keyed pc →
  foldl applyNotification (pods pc) (updatePodLocality r nodeName locality pc).2
  = pods (updatePodLocality r nodeName locality pc).1.
Proof.
  intros Hk. rewrite updatePodLocality_pods, updatePodLocality_updated.
  rewrite foldl_fmap. simpl. apply map_eq. intros k.
  rewrite (foldl_insert_lookup _ _ (relocate nodeName locality <$> pods pc)).
  - case_decide as Hin; [done|]. rewrite lookup_fmap.
    destruct (pods pc !! k) as [pod|] eqn:Hl; [|done]. simpl. f_equal.
    unfold relocate. case_decide as Hn; [|done]. exfalso. apply Hin.
    apply list_elem_of_fmap. exists (setLocality locality pod).
    split; [by destruct (Hk k pod Hl)|].
    apply elem_of_updated. eauto.
  - intros info (ip & pod & Hl & Hn & ->)%elem_of_updated. simpl.
    destruct (Hk ip pod Hl) as [-> _]. rewrite lookup_fmap, Hl. simpl.
    unfold relocate. by rewrite decide_True.
Qed.

(** The notifications of an event tell the whole change of the records: a
    listener that stores the records added and updated and drops the records
    deleted, in the order notified, holds the records of the cache. *)
Theorem notifications_replay r pc e pc' ns :
  reachable pc →
  Handle r pc e = Some (pc', ns) →
  foldl applyNotification (pods pc) ns = pods pc'.
Proof.
  intros Hreach%reachable_keyed Hh.
  destruct (Handle_cases _ _ _ _ _ Hh)
    as [[= -> ->] | [(pod & _ & Heq) | [(ip & Heq) | (n & loc & index & Heq)]]].
  - done.
  - revert Heq. unfold updatePod. repeat (case_match || case_decide); by intros [= -> ->].
  - revert Heq. unfold deletePod. destruct (pods pc !! ip) as [pod|] eqn:Hl.
    + intros [= -> ->]. simpl. by destruct (Hreach ip pod Hl) as [-> _].
    + by intros [= -> ->].
  - assert (pc' = (updatePodLocality r n loc {| pods := pods pc; nodeNameToLocality := index |}).1)
      as -> by (by rewrite <- Heq).
    assert (ns = (updatePodLocality r n loc {| pods := pods pc; nodeNameToLocality := index |}).2)
      as -> by (by rewrite <- Heq).
    by apply (updatePodLocality_replay r n loc {| pods := pods pc; nodeNameToLocality := index |}).
Qed.

(** Every notification is true of the cache: [PodAdded] carries a record
    under an IP that held none, [PodUpdated] a record under an IP that held
    one, and both are what [GetPodByIP] returns once the event is handled;
    [PodDeleted] carries the record that was stored, and the IP holds none
    afterwards. *)
Theorem notifications_faithful r pc e pc' ns :
  reachable pc →
  Handle r pc e = Some (pc', ns) →
  Forall (faithful pc pc') ns.
Proof.
  intros Hreach%reachable_keyed Hh. unfold faithful, GetPodByIP.
  destruct (Handle_cases _ _ _ _ _ Hh)
    as [[= -> ->] | [(pod & _ & Heq) | [(ip & Heq) | (n & loc & index & Heq)]]].
  - constructor.
  - revert Heq. unfold updatePod.
    destruct (pods pc !! IP pod) as [prev|] eqn:Hl; case_decide;
      intros [= -> ->]; repeat constructor; simpl;
      rewrite ?Hl, ?lookup_insert_eq; eauto.
  - revert Heq. unfold deletePod. destruct (pods pc !! ip) as [pod|] eqn:Hl.
    + intros [= -> ->]. repeat constructor; simpl;
        destruct (Hreach ip pod Hl) as [-> _]; [done|by rewrite lookup_delete_eq].
    + intros [= -> ->]. constructor.
  - assert (pc' = (updatePodLocality r n loc {| pods := pods pc; nodeNameToLocality := index |}).1)
      as -> by (by rewrite <- Heq).
    assert (ns = (updatePodLocality r n loc {| pods := pods pc; nodeNameToLocality := index |}).2)
      as -> by (by rewrite <- Heq).
    rewrite updatePodLocality_pods, updatePodLocality_updated. simpl.
    rewrite Forall_fmap. apply Forall_forall.
    intros info (ip & pod & Hl & Hn & ->)%elem_of_updated. simpl.
    destruct (Hreach ip pod Hl) as [-> _]. rewrite lookup_fmap, Hl. simpl.
    split; [eauto|]. unfold relocate. by rewrite decide_True.
Qed.

(** What an event leaves alone. A pod event does not touch the node index. A
    node event neither adds nor removes a record, and changes no field of a
    record but its locality. Events of other sources, and of other kinds,
    change nothing. *)
Theorem Handle_frame r pc e pc' ns :
  Handle r pc e = Some (pc', ns) →
  (EventSource e = K8SCoreV1Pods → nodeNameToLocality pc' = nodeNameToLocality pc) ∧
  (EventSource e = K8SCoreV1Nodes →
     dom (pods pc') = dom (pods pc) ∧
     ∀ ip pod', pods pc' !! ip = Some pod' →
       ∃ pod, pods pc !! ip = Some pod ∧ pod' = setLocality (Locality pod') pod) ∧
  (EventSource e = OtherSource ∨ EventKind e = OtherKind → pc' = pc ∧ ns = []).
Proof.
  intros Hh. split; [|split].
  - intros Hsrc. revert Hh. unfold Handle, handlePod. rewrite Hsrc.
    unfold updatePod, deletePod.
    repeat (case_match || case_decide); try done; by intros [= <- <-].
  - intros Hsrc. revert Hh. unfold Handle. rewrite Hsrc. intros [= Hh].
    assert (pods pc' = pods pc ∨ ∃ n loc, pods pc' = relocate n loc <$> pods pc) as Hp.
    { apply (f_equal fst) in Hh. simpl in Hh. subst pc'. unfold handleNode.
      repeat (case_match || case_decide); eauto;
        right; eexists _, _; exact (updatePodLocality_pods _ _ _ _). }
    destruct Hp as [-> | (n & loc & ->)].
    + split; [done|]. intros ip pod' Hl. exists pod'. split; [done|]. by destruct pod'.
    + split; [by rewrite dom_fmap_L|]. intros ip pod'. rewrite lookup_fmap.
      destruct (pods pc !! ip) as [pod|]; [|done]. simpl. intros [= <-].
      exists pod. split; [done|]. unfold relocate. case_decide; [done|]. by destruct pod.
  - intros Hother. revert Hh. unfold Handle, handleNode, handlePod.
    destruct Hother as [-> | Hkind]; [by intros [= <- <-]|].
    rewrite Hkind. destruct (EventSource e); by intros [= <- <-].
Qed.

(** After a node event of kind Added or Updated, the locality the index gives
    for the node (the empty one when the node is not in it) is the locality of
    its labels, and the entries of the other nodes are as before. The
    locality is empty only for a node with neither region nor zone; such a
    node, when it is not in the index, is not put into it. *)
Theorem handleNode_index r pc e :
  EventKind e = Added ∨ EventKind e = Updated →
  let nodeName := (InterpretAsNamespaceAndName (Name (EntryMetadata (EventEntry e)))).2 in
  let region := goIndex (MetaLabels (EntryMetadata (EventEntry e))) LabelZoneRegion in
  let zone := goIndex (MetaLabels (EntryMetadata (EventEntry e))) LabelZoneFailureDomain in
  let index' := nodeNameToLocality (handleNode r pc e).1 in
  default "" (index' !! nodeName) = getLocality region zone ∧
  (∀ other, other ≠ nodeName → index' !! other = nodeNameToLocality pc !! other) ∧
  (getLocality region zone = "" ↔ region = "" ∧ zone = "") ∧
  (region = "" → zone = "" → nodeNameToLocality pc !! nodeName = None →
   index' !! nodeName = None).
Proof.
  intros Hkind nodeName region zone index'. subst index'.
  assert (handleNode r pc e
          = if decide (getLocality region zone = default "" (nodeNameToLocality pc !! nodeName))
            then (pc, [])
            else updatePodLocality r nodeName (getLocality region zone)
                   {| pods := pods pc;
                      nodeNameToLocality :=
                        <[nodeName := getLocality region zone]> (nodeNameToLocality pc) |})
    as ->.
  { unfold handleNode. by destruct Hkind as [-> | ->]. }
  assert (getLocality region zone = "" ↔ region = "" ∧ zone = "") as Hempty.
  { unfold getLocality. case_decide as Hrz; [tauto|]. split; [|tauto].
    destruct region; [|done]. destruct zone; [tauto|done]. }
  case_decide as Hcmp; simpl.
  - split; [done|]. split; [done|]. split; [done|]. by intros _ _ ->.
  - split; [by rewrite lookup_insert_eq|].
    split; [by intros; rewrite lookup_insert_ne|]. split; [done|].
    intros Hr Hz Hnone. exfalso. apply Hcmp. rewrite Hnone. simpl. by apply Hempty.
Qed.

(** Adding a pod and deleting it leaves the records as they were, with one
    [PodAdded] and one [PodDeleted]: whether the pod is deleted by a Deleted
    event that carries it, or by an update that shows it in a phase other than
    Pending and Running. *)
Theorem add_then_delete r1 r2 pc e pod e' pod' :
  EventSource e = K8SCoreV1Pods → EventKind e = Added →
  EntryItem (EventEntry e) = ItemPod pod →
  coreV1.PodIP (coreV1.Status pod) ≠ "" →
  coreV1.Phase (coreV1.Status pod) = coreV1.PodPending
    ∨ coreV1.Phase (coreV1.Status pod) = coreV1.PodRunning →
  pods pc !! coreV1.PodIP (coreV1.Status pod) = None →
  EventSource e' = K8SCoreV1Pods →
  EntryItem (EventEntry e') = ItemPod pod' →
  coreV1.PodIP (coreV1.Status pod') = coreV1.PodIP (coreV1.Status pod) →
  EventKind e' = Deleted
    ∨ (EventKind e' = Updated
       ∧ ¬ (coreV1.Phase (coreV1.Status pod') = coreV1.PodPending
            ∨ coreV1.Phase (coreV1.Status pod') = coreV1.PodRunning)) →
  ∃ pc', HandleAll [(r1, e); (r2, e')] pc
         = Some (pc', [PodAdded (infoOf pc e pod); PodDeleted (infoOf pc e pod)])
       ∧ pods pc' = pods pc ∧ nodeNameToLocality pc' = nodeNameToLocality pc.
Proof.
  intros Hsrc Hkind Hitem Hip Hphase Hnew Hsrc' Hitem' Hip' Hend. simpl.
  unfold Handle. rewrite Hsrc, Hsrc'.
  rewrite (handlePod_upsert r1 pc e pod) by auto.
  rewrite updatePod_new by done.
  assert (handlePod r2 (stored (infoOf pc e pod) pc) e'
          = Some (deletePod (coreV1.PodIP (coreV1.Status pod)) (stored (infoOf pc e pod) pc)))
    as ->.
  { unfold handlePod. rewrite Hitem', Hip'.
    destruct Hend as [-> | [-> Hphase']]; [done|].
    rewrite (decide_False (P := _ = "")) by done. by rewrite decide_False. }
  unfold deletePod. simpl. rewrite lookup_insert_eq. eexists. split; [done|]. simpl.
  split; [|done]. rewrite delete_insert_eq. by apply delete_id.
Qed.

End handlers.

(** ** Concrete events

    Instances of the two helpers, so that the handlers run on concrete
    events: a name is split at its first slash, and the service account is
    the SPIFFE URI of the namespace and account. *)
Fixpoint splitAtSlash (s : string) : option (string * string) :=
  match s with
  | EmptyString => None
  | String c s' =>
      if Ascii.eqb c (Ascii.ascii_of_nat 47) then Some (EmptyString, s')
      else match splitAtSlash s' with
           | Some (ns, name) => Some (String c ns, name)
           | None => None
           end
  end.

Definition splitName (s : string) : string * string :=
  match splitAtSlash s with
  | Some p => p
  | None => ("", s)
  end.

Definition spiffeURI (ns saname : string) : string :=
  "spiffe://cluster.local/ns/" +:+ ns +:+ "/sa/" +:+ saname.

Definition nodeEvent (k : Kind) (name : string) (labels : GoMap) : Event :=
  {| EventKind := k; EventSource := K8SCoreV1Nodes;
     EventEntry := {| EntryMetadata := {| Name := name; MetaLabels := labels |};
                      EntryItem := ItemOther |} |}.

Definition podEvent (k : Kind) (name : string) (item : Item) : Event :=
  {| EventKind := k; EventSource := K8SCoreV1Pods;
     EventEntry := {| EntryMetadata := {| Name := name; MetaLabels := None |};
                      EntryItem := item |} |}.

Definition zoneLabels (region zone : string) : GoMap :=
  Some (<[LabelZoneRegion := region]> (<[LabelZoneFailureDomain := zone]> ∅)).

Definition examplePod (ip phase node : string) : coreV1.Pod :=
  {| coreV1.Namespace := "ns"; coreV1.Labels := None;
     coreV1.Spec := {| coreV1.NodeName := node; coreV1.ServiceAccountName := "sa" |};
     coreV1.Status := {| coreV1.PodIP := ip; coreV1.Phase := phase |} |}.

(** Node n1 in us-east/1a, two pods on it and one pod on node n2. *)
Definition exampleEvents : list (MapRange * Event) :=
  [ (canonicalRange, nodeEvent Added "n1" (zoneLabels "us-east" "1a"));
    (canonicalRange, podEvent Added "ns/p1" (ItemPod (examplePod "10.0.0.5" "Running" "n1")));
    (canonicalRange, podEvent Added "ns/p2" (ItemPod (examplePod "10.0.0.6" "Pending" "n1")));
    (canonicalRange, podEvent Added "ns/p3" (ItemPod (examplePod "10.0.0.7" "Running" "n2"))) ].

Definition exampleRun : cacheImpl * list Notification :=
  default (NewCache, []) (HandleAll splitName spiffeURI exampleEvents NewCache).

Definition exampleInfo (ip name locality node : string) : Info :=
  {| IP := ip; FullName := name; Labels := None; Locality := locality;
     ServiceAccountName := "spiffe://cluster.local/ns/ns/sa/sa"; NodeName := node |}.

Lemma exampleRun_eq :
  HandleAll splitName spiffeURI exampleEvents NewCache = Some (exampleRun.1, exampleRun.2).
Proof. vm_compute. reflexivity. Qed.

Lemma exampleRun_reachable : reachable splitName spiffeURI exampleRun.1.
Proof. exists exampleEvents, exampleRun.2. apply exampleRun_eq. Qed.

(** The run notifies the three additions, with the localities of the nodes. *)
Example exampleRun_notifications :
  exampleRun.2 = [ PodAdded (exampleInfo "10.0.0.5" "ns/p1" "us-east/1a" "n1");
                   PodAdded (exampleInfo "10.0.0.6" "ns/p2" "us-east/1a" "n1");
                   PodAdded (exampleInfo "10.0.0.7" "ns/p3" "" "n2") ].
Proof. vm_compute. reflexivity. Qed.

(** Witness of C2: node n1 moves to us-west/2b. *)
Lemma handleNode_locality_witness :
  ∃ pc' ns,
    Handle splitName spiffeURI canonicalRange exampleRun.1
      (nodeEvent Updated "n1" (zoneLabels "us-west" "2b")) = Some (pc', ns) ∧
    nodeNameToLocality pc' = <["n1" := "us-west/2b"]> (nodeNameToLocality exampleRun.1) ∧
    ∃ infos, ns = PodUpdated <$> infos ∧
             Forall (λ info, Locality info = "us-west/2b") infos ∧
             length infos = length (podsOnNode "n1" (pods exampleRun.1)).
Proof.
  destruct (proj2
    (handleNode_locality splitName spiffeURI canonicalRange exampleRun.1
       (nodeEvent Updated "n1" (zoneLabels "us-west" "2b"))
       eq_refl (or_intror eq_refl)))
    as (pc' & ns & Hh & Hindex & _ & bound & infos & Hbound & Hns & Hinfos).
  - vm_compute. discriminate.
  - exists pc', ns. split; [exact Hh|]. split; [exact Hindex|].
    exists infos. split; [exact Hns|]. split.
    + apply (Forall2_Forall_r _ _ _ _ Hinfos). apply Forall_true. intros pod info [_ Hloc].
      exact Hloc.
    + rewrite <- (Forall2_length _ _ _ Hinfos). by rewrite Hbound.
Defined.

(** Witness of C5: the record of pod p1 is stored in the new cache. *)
Lemma updatePod_idempotent_witness :
  updatePod (exampleInfo "10.0.0.5" "ns/p1" "" "n1") NewCache
  = (stored (exampleInfo "10.0.0.5" "ns/p1" "" "n1") NewCache,
     [PodAdded (exampleInfo "10.0.0.5" "ns/p1" "" "n1")]).
Proof.
  apply (updatePod_idempotent splitName spiffeURI
           (exampleInfo "10.0.0.5" "ns/p1" "" "n1") NewCache).
  reflexivity.
Defined.

(** Witness of C7: after the run, pod p2 has the locality of node n1. *)
Lemma cache_consistency_witness :
  Locality (exampleInfo "10.0.0.6" "ns/p2" "us-east/1a" "n1") = "us-east/1a".
Proof.
  exact (cache_consistency splitName spiffeURI exampleEvents exampleRun.1 exampleRun.2
           exampleRun_eq "10.0.0.6" (exampleInfo "10.0.0.6" "ns/p2" "us-east/1a" "n1")
           eq_refl).
Defined.

(** Counterexample to C8 as stated: the pod gets its IP when it has already
    succeeded; the update is not treated as an add. *)
Lemma update_with_ip_not_added :
  HandleAll splitName spiffeURI
    [ (canonicalRange, podEvent Added "ns/job" (ItemPod (examplePod "" "Pending" "n1")));
      (canonicalRange, podEvent Updated "ns/job" (ItemPod (examplePod "10.0.0.9" "Succeeded" "n1"))) ]
    NewCache
  = Some (NewCache, [])
  ∧ GetPodByIP NewCache "10.0.0.9" = None.
Proof. split; vm_compute; reflexivity. Qed.

(** Witness of C8: the same pod, still pending when it gets its IP. *)
Lemma handlePod_without_ip_witness :
  HandleAll splitName spiffeURI
    [ (canonicalRange, podEvent Added "ns/job" (ItemPod (examplePod "" "Pending" "n1")));
      (canonicalRange, podEvent Updated "ns/job" (ItemPod (examplePod "10.0.0.9" "Pending" "n1"))) ]
    NewCache
  = Some (stored (exampleInfo "10.0.0.9" "ns/job" "" "n1") NewCache,
          [PodAdded (exampleInfo "10.0.0.9" "ns/job" "" "n1")]).
Proof.
  apply (proj2 (handlePod_without_ip splitName spiffeURI canonicalRange NewCache
                  (podEvent Added "ns/job" (ItemPod (examplePod "" "Pending" "n1")))
                  (examplePod "" "Pending" "n1")
                  eq_refl (or_introl eq_refl) eq_refl eq_refl)
           canonicalRange
           (podEvent Updated "ns/job" (ItemPod (examplePod "10.0.0.9" "Pending" "n1")))
           (examplePod "10.0.0.9" "Pending" "n1")
           eq_refl (or_intror eq_refl) eq_refl).
  - vm_compute. discriminate.
  - reflexivity.
  - left. reflexivity.
Defined.

(** The node of pods p1 and p2 is deleted: both lose their locality, each
    with one notification. *)
Lemma handleNode_deleted_witness :
  ∃ pc' ns,
    Handle splitName spiffeURI canonicalRange exampleRun.1 (nodeEvent Deleted "n1" None)
    = Some (pc', ns) ∧
    nodeNameToLocality pc' = delete "n1" (nodeNameToLocality exampleRun.1) ∧
    ∃ infos, ns = PodUpdated <$> infos ∧
             Forall (λ info, Locality info = "") infos ∧
             length infos = length (podsOnNode "n1" (pods exampleRun.1)).
Proof.
  destruct (handleNode_deleted splitName spiffeURI canonicalRange exampleRun.1
              (nodeEvent Deleted "n1" None) eq_refl eq_refl)
    as (pc' & ns & Hh & Hindex & _ & bound & infos & Hbound & Hns & Hinfos).
  exists pc', ns. split; [exact Hh|]. split; [exact Hindex|].
  exists infos. split; [exact Hns|]. split.
  - apply (Forall2_Forall_r _ _ _ _ Hinfos). apply Forall_true. intros pod info [_ Hloc].
    exact Hloc.
  - rewrite <- (Forall2_length _ _ _ Hinfos). by rewrite Hbound.
Defined.

Lemma records_keyed_by_ip_witness :
  IP (exampleInfo "10.0.0.7" "ns/p3" "" "n2") = "10.0.0.7" ∧ "10.0.0.7" ≠ "".
Proof.
  exact (records_keyed_by_ip splitName spiffeURI exampleEvents exampleRun.1 exampleRun.2
           exampleRun_eq "10.0.0.7" (exampleInfo "10.0.0.7" "ns/p3" "" "n2") eq_refl).
Defined.

(** The scenario of the specification: a pod with IP 10.0.0.5 is added on
    node n1 in us-east/1a, and is found by its IP with that locality; when the
    node is deleted, the locality of the pod becomes empty by one
    [PodUpdated]. *)
Example locality_scenario :
  let added :=
    default (NewCache, [])
      (HandleAll splitName spiffeURI
         [ (canonicalRange, nodeEvent Added "n1" (zoneLabels "us-east" "1a"));
           (canonicalRange,
            podEvent Added "ns/p1" (ItemPod (examplePod "10.0.0.5" "Running" "n1"))) ]
         NewCache) in
  let deleted :=
    default (NewCache, [])
      (Handle splitName spiffeURI canonicalRange added.1 (nodeEvent Deleted "n1" None)) in
  GetPodByIP added.1 "10.0.0.5" = Some (exampleInfo "10.0.0.5" "ns/p1" "us-east/1a" "n1")
  ∧ deleted.2 = [PodUpdated (exampleInfo "10.0.0.5" "ns/p1" "" "n1")]
  ∧ GetPodByIP deleted.1 "10.0.0.5" = Some (exampleInfo "10.0.0.5" "ns/p1" "" "n1").
Proof. repeat split; vm_compute; reflexivity. Qed.

(** Node n1 moves to us-west/2b after the run. *)
Definition exampleMoved : cacheImpl * list Notification :=
  default (NewCache, [])
    (Handle splitName spiffeURI canonicalRange exampleRun.1
       (nodeEvent Updated "n1" (zoneLabels "us-west" "2b"))).

Lemma exampleMoved_eq :
  Handle splitName spiffeURI canonicalRange exampleRun.1
    (nodeEvent Updated "n1" (zoneLabels "us-west" "2b"))
  = Some (exampleMoved.1, exampleMoved.2).
Proof. vm_compute. reflexivity. Qed.

Lemma notifications_replay_witness :
  foldl applyNotification (pods exampleRun.1) exampleMoved.2 = pods exampleMoved.1.
Proof.
  exact (notifications_replay splitName spiffeURI canonicalRange exampleRun.1
           (nodeEvent Updated "n1" (zoneLabels "us-west" "2b")) exampleMoved.1 exampleMoved.2
           exampleRun_reachable exampleMoved_eq).
Defined.

Lemma notifications_faithful_witness :
  Forall (faithful exampleRun.1 exampleMoved.1) exampleMoved.2.
Proof.
  exact (notifications_faithful splitName spiffeURI canonicalRange exampleRun.1
           (nodeEvent Updated "n1" (zoneLabels "us-west" "2b")) exampleMoved.1 exampleMoved.2
           exampleRun_reachable exampleMoved_eq).
Defined.

Lemma Handle_frame_witness :
  dom (pods exampleMoved.1) = dom (pods exampleRun.1).
Proof.
  exact (proj1 (proj1 (proj2
    (Handle_frame splitName spiffeURI canonicalRange exampleRun.1
       (nodeEvent Updated "n1" (zoneLabels "us-west" "2b")) exampleMoved.1 exampleMoved.2
       exampleMoved_eq)) eq_refl)).
Defined.

Lemma handleNode_index_witness :
  default ""
    (nodeNameToLocality
       (handleNode splitName canonicalRange exampleRun.1
          (nodeEvent Updated "n1" (zoneLabels "us-west" "2b"))).1 !! "n1")
  = "us-west/2b".
Proof.
  exact (proj1
    (handleNode_index splitName spiffeURI canonicalRange exampleRun.1
       (nodeEvent Updated "n1" (zoneLabels "us-west" "2b")) (or_intror eq_refl))).
Defined.

(** Pod p4 comes and goes. *)
Lemma add_then_delete_witness :
  ∃ pc',
    HandleAll splitName spiffeURI
      [ (canonicalRange, podEvent Added "ns/p4" (ItemPod (examplePod "10.0.0.8" "Running" "n2")));
        (canonicalRange, podEvent Updated "ns/p4" (ItemPod (examplePod "10.0.0.8" "Failed" "n2"))) ]
      exampleRun.1
    = Some (pc', [ PodAdded (exampleInfo "10.0.0.8" "ns/p4" "" "n2");
                   PodDeleted (exampleInfo "10.0.0.8" "ns/p4" "" "n2") ])
    ∧ pods pc' = pods exampleRun.1
    ∧ nodeNameToLocality pc' = nodeNameToLocality exampleRun.1.
Proof.
  apply (add_then_delete splitName spiffeURI canonicalRange canonicalRange exampleRun.1
           (podEvent Added "ns/p4" (ItemPod (examplePod "10.0.0.8" "Running" "n2")))
           (examplePod "10.0.0.8" "Running" "n2")
           (podEvent Updated "ns/p4" (ItemPod (examplePod "10.0.0.8" "Failed" "n2")))
           (examplePod "10.0.0.8" "Failed" "n2")
           eq_refl eq_refl eq_refl).
  - vm_compute. discriminate.
  - right. reflexivity.
  - vm_compute. reflexivity.
  - reflexivity.
  - reflexivity.
  - reflexivity.
  - right. split; [reflexivity|]. vm_compute. intros [H|H]; discriminate H.
Defined.

(** Counterexample to C9 as stated: the Deleted event of pod p1 carries the
    pod, but the pod has no IP. No record is looked up by name: p1 stays
    stored and nothing is notified. *)
Lemma delete_with_empty_ip_keeps_record :
  pods exampleRun.1 !! "10.0.0.5" = Some (exampleInfo "10.0.0.5" "ns/p1" "us-east/1a" "n1")
  ∧ Handle splitName spiffeURI canonicalRange exampleRun.1
      (podEvent Deleted "ns/p1" (ItemPod (examplePod "" "Running" "n1")))
    = Some (exampleRun.1, []).
Proof. split; vm_compute; reflexivity. Qed.

(** Witness of C9: the Deleted event of pod p1 carries no pod. *)
Lemma delete_by_name_witness :
  ∃ ip pod, pods exampleRun.1 !! ip = Some pod ∧ FullName pod = "ns/p1" ∧
    Handle splitName spiffeURI canonicalRange exampleRun.1 (podEvent Deleted "ns/p1" ItemOther)
    = Some (removed ip exampleRun.1, [PodDeleted pod]).
Proof.
  apply (delete_by_name splitName spiffeURI canonicalRange exampleRun.1
           (podEvent Deleted "ns/p1" ItemOther) exampleRun_reachable eq_refl eq_refl eq_refl).
  exists "10.0.0.5", (exampleInfo "10.0.0.5" "ns/p1" "us-east/1a" "n1").
  split; vm_compute; reflexivity.
Defined.

End PodCache.

(* ===================================================================== *)
(** * The dynamic cluster dump (configdump/cluster.go) *)
(* ===================================================================== *)
Module ConfigDump.

(** A Go result [(value, err)]: either the value or the error. *)
Inductive result (E T : Type) :=
  | Ok (v : T)
  | Err (err : E).
Arguments Ok {E T} v.
Arguments Err {E T} err.

(** [sort.Slice] sorts a slice in place by a [less] function and is not
    stable. The model is insertion sort, which is what the library runs on a
    short slice: each element in turn moves left past the elements it is less
    than. What is proved of it below, order and permutation, is what every
    sort has. *)
Fixpoint insertBy {A} (less : A → A → bool) (x : A) (l : list A) : list A :=
  match l with
  | [] => [x]
  | y :: l' => if less x y then x :: y :: l' else y :: insertBy less x l'
  end.

Definition sortSlice {A} (less : A → A → bool) (l : list A) : list A :=
  foldl (λ sorted x, insertBy less x sorted) [] l.

(** Go compares strings byte by byte: [String.ltb] on the character codes. *)
Definition stringLess (a b : string) : bool := String.ltb a b.

Section dump.
(** The parts of the Envoy API the dump does not look into. *)
Context {ClusterConfig Timestamp Any Wrapper Error : Type}.

(** [xdsapi.Cluster]: the dump reads the name. *)
Record Cluster := { Name : string; Config : ClusterConfig }.
Record StaticCluster := {
  StaticClusterOf : Cluster;
  StaticLastUpdated : option Timestamp
}.

(** An entry of the dump. The comparison reads [Cluster.Name] without a nil
    check: an entry holds its cluster. *)
Record DynamicCluster := {
  VersionInfo : string;
  ClusterOf : Cluster;
  LastUpdated : option Timestamp
}.

Record ClustersConfigDump := {
  DumpVersionInfo : string;
  StaticClusters : list StaticCluster;
  DynamicActiveClusters : list DynamicCluster;
  DynamicWarmingClusters : list DynamicCluster
}.

(** The wrapper's section lookup, its key for the clusters, and the
    decoding of the section. *)
Variable getSection : Wrapper → string → result Error Any.
Variable clusters : string.
Variable UnmarshalAny : Any → result Error ClustersConfigDump.

(** GetClusterConfigDump retrieves the cluster config dump from the
    ConfigDump *)
Definition GetClusterConfigDump (w : Wrapper) : result Error ClustersConfigDump :=
  match getSection w clusters with
  | Err err => Err err
  | Ok clusterDumpAny =>
      match UnmarshalAny clusterDumpAny with
      | Err err => Err err
      | Ok clusterDump => Ok clusterDump
      end
  end.

(** The comparison handed to [sort.Slice]. *)
Definition lessByName (a b : DynamicCluster) : bool :=
  stringLess (Name (ClusterOf a)) (Name (ClusterOf b)).

(** The body of the loop under [stripVersions]. *)
Definition stripVersion (c : DynamicCluster) : DynamicCluster :=
  {| VersionInfo := ""; ClusterOf := ClusterOf c; LastUpdated := None |}.

(** GetDynamicClusterDump retrieves a cluster dump with just dynamic active
    clusters in it *)
Definition GetDynamicClusterDump (w : Wrapper) (stripVersions : bool)
    : result Error ClustersConfigDump :=
  match GetClusterConfigDump w with
  | Err err => Err err
  | Ok clusterDump =>
      let dac := DynamicActiveClusters clusterDump in
      let dac := sortSlice lessByName dac in
      let dac := if stripVersions then stripVersion <$> dac else dac in
      Ok {| DumpVersionInfo := ""; StaticClusters := [];
            DynamicActiveClusters := dac; DynamicWarmingClusters := [] |}
  end.

(** ** Properties *)

(** Ascending order of the cluster names. *)
Definition nameLe (a b : DynamicCluster) : Prop :=
  String.leb (Name (ClusterOf a)) (Name (ClusterOf b)) = true.

Lemma compare_as_OT a b : String.compare a b = OrdersEx.String_as_OT.compare a b.
Proof.
  revert b. induction a as [|c a IH]; intros [|d b]; simpl; try done.
Qed.

Lemma stringLess_asym a b : stringLess a b = true → stringLess b a = false.
Proof.
  unfold stringLess, String.ltb. rewrite (String.compare_antisym b a).
  by destruct (String.compare a b).
Qed.

Lemma stringLess_false a b : stringLess a b = false ↔ String.leb b a = true.
Proof.
  unfold stringLess, String.ltb, String.leb. rewrite (String.compare_antisym b a).
  by destruct (String.compare a b).
Qed.

Lemma leb_trans a b c :
  String.leb a b = true → String.leb b c = true → String.leb a c = true.
Proof.
  unfold String.leb.
  destruct (String.compare a b) eqn:Hab; [| |done].
  - apply String.compare_eq_iff in Hab as ->. done.
  - intros _. destruct (String.compare b c) eqn:Hbc; [| |done]; intros _.
    + apply String.compare_eq_iff in Hbc as <-. by rewrite Hab.
    + rewrite compare_as_OT in *.
      pose proof (OrdersEx.String_as_OT.lt_strorder) as [_ Htrans].
      by rewrite (Htrans a b c Hab Hbc).
Qed.

#[local] Instance nameLe_trans : Transitive nameLe.
Proof. intros a b c. apply leb_trans. Qed.

Lemma lessByName_nameLe a b : lessByName a b = true → nameLe a b.
Proof.
  unfold lessByName, nameLe. intros H. apply stringLess_asym in H.
  by apply stringLess_false.
Qed.

Lemma not_lessByName_nameLe a b : lessByName a b = false → nameLe b a.
Proof. unfold lessByName, nameLe. apply stringLess_false. Qed.

Lemma insertBy_perm {A} (less : A → A → bool) x l : insertBy less x l ≡ₚ x :: l.
Proof.
  induction l as [|y l IH]; simpl; [done|].
  destruct (less x y); [done|]. rewrite IH. apply Permutation_swap.
Qed.

Lemma sortSlice_perm {A} (less : A → A → bool) l : sortSlice less l ≡ₚ l.
Proof.
  unfold sortSlice.
  assert (∀ acc, foldl (λ sorted x, insertBy less x sorted) acc l ≡ₚ acc ++ l) as H.
  { induction l as [|x l IH]; intros acc; simpl; [by rewrite app_nil_r|].
    rewrite IH, insertBy_perm. apply Permutation_middle. }
  apply (H []).
Qed.

Lemma insertBy_sorted x l :
  StronglySorted nameLe l → StronglySorted nameLe (insertBy lessByName x l).
Proof.
  induction 1 as [|y l Hl IH Hy]; simpl; [repeat constructor|].
  destruct (lessByName x y) eqn:Hless.
  - constructor; [by constructor|].
    apply lessByName_nameLe in Hless. constructor; [done|].
    eapply Forall_impl; [done|]. intros z Hz. by etrans.
  - constructor; [done|]. rewrite insertBy_perm.
    constructor; [|done]. by apply not_lessByName_nameLe.
Qed.

Lemma sortSlice_sorted l : StronglySorted nameLe (sortSlice lessByName l).
Proof.
  unfold sortSlice.
  assert (∀ acc, StronglySorted nameLe acc →
            StronglySorted nameLe (foldl (λ sorted x, insertBy lessByName x sorted) acc l))
    as H.
  { induction l as [|x l IH]; intros acc Hacc; simpl; [done|].
    by apply IH, insertBy_sorted. }
  apply H. constructor.
Qed.

Lemma stripVersion_sorted l :
  StronglySorted nameLe l → StronglySorted nameLe (stripVersion <$> l).
Proof.
  induction 1 as [|y l Hl IH Hy]; simpl; constructor; [done|].
  rewrite Forall_fmap. eapply Forall_impl; [done|]. by intros z Hz.
Qed.

(** C10. Whenever the cluster config dump is retrieved, for either value of
    [stripVersions], the returned dump holds the dynamic active clusters of
    the config dump (the same entries, up to the stripped fields) in
    ascending order of cluster name, and nothing else; and under
    [stripVersions] every returned entry has an empty VersionInfo and no
    LastUpdated. When the config dump is not retrieved, the error is
    returned. *)
Theorem GetDynamicClusterDump_sorted w stripVersions :
  match GetClusterConfigDump w with
  | Err err => GetDynamicClusterDump w stripVersions = Err err
  | Ok clusterDump =>
      ∃ dac,
        GetDynamicClusterDump w stripVersions
        = Ok {| DumpVersionInfo := ""; StaticClusters := [];
                DynamicActiveClusters := dac; DynamicWarmingClusters := [] |} ∧
        StronglySorted nameLe dac ∧
        ClusterOf <$> dac ≡ₚ ClusterOf <$> DynamicActiveClusters clusterDump ∧
        (if stripVersions
         then Forall (λ c, VersionInfo c = "" ∧ LastUpdated c = None) dac
         else dac ≡ₚ DynamicActiveClusters clusterDump)
  end.
Proof.
  unfold GetDynamicClusterDump.
  destruct (GetClusterConfigDump w) as [clusterDump|err]; [|done].
  eexists. split; [done|].
  destruct stripVersions.
  - split; [apply stripVersion_sorted, sortSlice_sorted|].
    split.
    + rewrite <- list_fmap_compose.
      rewrite (sortSlice_perm lessByName (DynamicActiveClusters clusterDump)).
      reflexivity.
    + rewrite Forall_fmap. by apply Forall_true.
  - split; [apply sortSlice_sorted|].
    by rewrite (sortSlice_perm lessByName (DynamicActiveClusters clusterDump)).
Qed.

Lemma leb_antisym a b : String.leb a b = true → String.leb b a = true → a = b.
Proof.
  unfold String.leb. rewrite (String.compare_antisym b a).
  destruct (String.compare a b) eqn:Hab; simpl; try done.
  intros _ _. by apply String.compare_eq_iff.
Qed.

Lemma NoDup_fmap_eq {A B} (f : A → B) (l : list A) x y :
  NoDup (f <$> l) → x ∈ l → y ∈ l → f x = f y → x = y.
Proof.
  induction l as [|z l IH]; [by intros _ ?%elem_of_nil|].
  rewrite fmap_cons, NoDup_cons.
  intros [Hz Hl] [->|Hx]%elem_of_cons [->|Hy]%elem_of_cons Hf; [done| | |by apply IH].
  - destruct Hz. rewrite Hf. by apply list_elem_of_fmap_2.
  - destruct Hz. rewrite <- Hf. by apply list_elem_of_fmap_2.
Qed.

(** With distinct names there is one list in ascending order of name. *)
Lemma sorted_by_name_unique l1 l2 :
  NoDup ((Name ∘ ClusterOf) <$> l1) → l1 ≡ₚ l2 →
  StronglySorted nameLe l1 → StronglySorted nameLe l2 → l1 = l2.
Proof.
  intros Hnd Hperm Hs1 Hs2.
  apply (StronglySorted_unique_strong nameLe); [|done..].
  intros x1 x2 Hx1 Hx2 H12 H21.
  apply (NoDup_fmap_eq (Name ∘ ClusterOf) l1); [done|done|by rewrite Hperm|].
  by apply leb_antisym.
Qed.

(** The dump does not depend on the order in which Envoy lists its clusters:
    two config dumps that hold the same dynamic active clusters, with
    distinct names, in any two orders give the same result, whatever the
    other fields of the two dumps are. With distinct names this holds of
    every sort, stable or not. *)
Theorem GetDynamicClusterDump_order_independent w1 w2 dump1 dump2 stripVersions :
  GetClusterConfigDump w1 = Ok dump1 →
  GetClusterConfigDump w2 = Ok dump2 →
  DynamicActiveClusters dump1 ≡ₚ DynamicActiveClusters dump2 →
  NoDup ((Name ∘ ClusterOf) <$> DynamicActiveClusters dump1) →
  GetDynamicClusterDump w1 stripVersions = GetDynamicClusterDump w2 stripVersions.
Proof.
  intros H1 H2 Hperm Hnd. unfold GetDynamicClusterDump. rewrite H1, H2.
  cbv zeta.
  assert (sortSlice lessByName (DynamicActiveClusters dump1)
          = sortSlice lessByName (DynamicActiveClusters dump2)) as ->; [|done].
  apply sorted_by_name_unique; [| |apply sortSlice_sorted..].
  - by rewrite (sortSlice_perm lessByName (DynamicActiveClusters dump1)).
  - by rewrite !sortSlice_perm.
Qed.

(** A dump whose clusters are already in strictly ascending order of name
    comes back in the same order: sorting is idempotent on the result of
    [GetDynamicClusterDump]. *)
Theorem GetDynamicClusterDump_idempotent w w' dump stripVersions stripVersions' :
  GetDynamicClusterDump w stripVersions = Ok dump →
  GetClusterConfigDump w' = Ok dump →
  NoDup ((Name ∘ ClusterOf) <$> DynamicActiveClusters dump) →
  GetDynamicClusterDump w' stripVersions'
  = Ok (if stripVersions'
        then {| DumpVersionInfo := ""; StaticClusters := [];
                DynamicActiveClusters := stripVersion <$> DynamicActiveClusters dump;
                DynamicWarmingClusters := [] |}
        else dump).
Proof.
  intros Hdump Hw' Hnd. unfold GetDynamicClusterDump in *. rewrite Hw'.
  destruct (GetClusterConfigDump w) as [clusterDump|err]; [|done].
  cbv zeta in Hdump. injection Hdump as <-. cbv zeta. simpl in *.
  match goal with |- context [sortSlice lessByName ?l] =>
    assert (sortSlice lessByName l = l) as ->
  end.
  { apply sorted_by_name_unique; [|apply sortSlice_perm|apply sortSlice_sorted|].
    - by rewrite (sortSlice_perm lessByName _).
    - destruct stripVersions; [apply stripVersion_sorted|]; apply sortSlice_sorted. }
  by destruct stripVersions'.
Qed.
End dump.

(** ** A concrete dump

    A wrapper is the list of its sections, each already decoded. *)
Definition exampleEntry (version name : string) : @DynamicCluster unit nat :=
  {| VersionInfo := version; ClusterOf := {| Name := name; Config := tt |};
     LastUpdated := Some 7 |}.

Definition exampleSection (w : list (string * @ClustersConfigDump unit nat)) (key : string)
    : result string (@ClustersConfigDump unit nat) :=
  match list_find (λ kv, kv.1 = key) w with
  | Some (_, kv) => Ok kv.2
  | None => Err "section not found"
  end.

Definition exampleWrapper : list (string * @ClustersConfigDump unit nat) :=
  [ ("clusters",
     {| DumpVersionInfo := "v7"; StaticClusters := [];
        DynamicActiveClusters :=
          [ exampleEntry "v3" "outbound|80||svc"; exampleEntry "v1" "BlackHoleCluster";
            exampleEntry "v2" "inbound|80||svc"; exampleEntry "v4" "PassthroughCluster" ];
        DynamicWarmingClusters := [] |}) ].

Example dump_by_name :
  GetDynamicClusterDump exampleSection "clusters" Ok exampleWrapper false
  = Ok {| DumpVersionInfo := ""; StaticClusters := [];
          DynamicActiveClusters :=
            [ exampleEntry "v1" "BlackHoleCluster"; exampleEntry "v4" "PassthroughCluster";
              exampleEntry "v2" "inbound|80||svc"; exampleEntry "v3" "outbound|80||svc" ];
          DynamicWarmingClusters := [] |}
  ∧ GetDynamicClusterDump exampleSection "clusters" Ok exampleWrapper true
    = Ok {| DumpVersionInfo := ""; StaticClusters := [];
            DynamicActiveClusters :=
              (λ name, {| VersionInfo := ""; ClusterOf := {| Name := name; Config := tt |};
                          LastUpdated := None |})
              <$> [ "BlackHoleCluster"; "PassthroughCluster"; "inbound|80||svc";
                    "outbound|80||svc" ];
            DynamicWarmingClusters := [] |}
  ∧ GetDynamicClusterDump exampleSection "listeners" Ok exampleWrapper true
    = Err "section not found".
Proof. repeat split; vm_compute; reflexivity. Qed.

(** The clusters of the example wrapper as Envoy may list them another
    time: in reverse, under another version. *)
Definition exampleClusters : @ClustersConfigDump unit nat :=
  default {| DumpVersionInfo := ""; StaticClusters := []; DynamicActiveClusters := [];
             DynamicWarmingClusters := [] |}
          (snd <$> head exampleWrapper).

Definition exampleReversed : @ClustersConfigDump unit nat :=
  {| DumpVersionInfo := "v8"; StaticClusters := [];
     DynamicActiveClusters := reverse (DynamicActiveClusters exampleClusters);
     DynamicWarmingClusters := DynamicActiveClusters exampleClusters |}.

Lemma exampleClusters_distinct :
  NoDup ((Name ∘ ClusterOf) <$> DynamicActiveClusters exampleClusters).
Proof. apply (bool_decide_unpack _). vm_compute. reflexivity. Qed.

Lemma GetDynamicClusterDump_order_independent_witness :
  GetDynamicClusterDump exampleSection "clusters" Ok [("clusters", exampleReversed)] true
  = GetDynamicClusterDump exampleSection "clusters" Ok exampleWrapper true.
Proof.
  apply (GetDynamicClusterDump_order_independent exampleSection "clusters" Ok
           [("clusters", exampleReversed)] exampleWrapper exampleReversed exampleClusters true
           eq_refl eq_refl).
  - apply reverse_Permutation.
  - change (DynamicActiveClusters exampleReversed)
      with (reverse (DynamicActiveClusters exampleClusters)).
    rewrite reverse_Permutation. apply exampleClusters_distinct.
Defined.

(** The dump of the example wrapper, dumped again. *)
Definition exampleDump : @ClustersConfigDump unit nat :=
  match GetDynamicClusterDump exampleSection "clusters" Ok exampleWrapper false with
  | Ok dump => dump
  | Err _ => exampleClusters
  end.

Lemma GetDynamicClusterDump_idempotent_witness :
  GetDynamicClusterDump exampleSection "clusters" Ok [("clusters", exampleDump)] false
  = Ok exampleDump.
Proof.
  apply (GetDynamicClusterDump_idempotent exampleSection "clusters" Ok
           exampleWrapper [("clusters", exampleDump)] exampleDump false false
           eq_refl eq_refl).
  apply (bool_decide_unpack _). vm_compute. reflexivity.
Defined.

End ConfigDump.

(* ===================================================================== *)
(** * The cluster builder (networking/core/v1alpha3) *)
(* ===================================================================== *)
Module ClusterBuilder.

(** [apiv2.Cluster_DiscoveryType] *)
Inductive DiscoveryType := STATIC | STRICT_DNS | LOGICAL_DNS | EDS | ORIGINAL_DST.

#[global] Instance DiscoveryType_eq_dec : EqDecision DiscoveryType.
Proof. solve_decision. Defined.

(** [discoveryType.String()] *)
Definition DiscoveryType_String (t : DiscoveryType) : string :=
  match t with
  | STATIC => "STATIC"
  | STRICT_DNS => "STRICT_DNS"
  | LOGICAL_DNS => "LOGICAL_DNS"
  | EDS => "EDS"
  | ORIGINAL_DST => "ORIGINAL_DST"
  end.

Inductive DnsLookupFamily := AUTO | V4_ONLY | V6_ONLY.
Inductive TrafficDirection := TrafficDirectionInbound | TrafficDirectionOutbound.
Inductive ClusterMode := DefaultClusterMode | SniDnatClusterMode.
Inductive MutualTLSMode := MTLSUnknown | MTLSDisable | MTLSPermissive | MTLSStrict.
Inductive SimpleLB := ROUND_ROBIN | LEAST_CONN | RANDOM | PASSTHROUGH.
Inductive MetricName := DNSNoEndpointClusters.

#[global] Instance ClusterMode_eq_dec : EqDecision ClusterMode.
Proof. solve_decision. Defined.

Record Duration := { Seconds : Z; Nanos : Z }.

(** [model.Port] *)
Record Port := { PortName : string; PortNumber : Z; Protocol : string }.

Section builder.
(** Types of other packages the builder passes on without looking into
    them. [ClusterRest] stands for the fields of [apiv2.Cluster] that only
    the helpers outside this file write (load balancing, circuit breakers,
    TLS context, ...). *)
Context {Proxy ServiceAttributes ConfigMeta Metadata LocalityLbEndpoints : Type}.
Context {CustomClusterType ClusterRest NetworkView : Type}.
Context {ConsistentHashLB HTTPSettings OutlierDetection TLSSettings PortTrafficPolicy : Type}.

(** *** [networking.TrafficPolicy] and [networking.DestinationRule] *)

Inductive LbPolicy :=
  | LoadBalancerSettings_Simple (simple : SimpleLB)
  | LoadBalancerSettings_ConsistentHash (hash : ConsistentHashLB).

Record LoadBalancerSettings := { LbPolicyOf : option LbPolicy }.

Record TCPSettings := { MaxConnections : Z; ConnectTimeout : option Duration }.

Record ConnectionPoolSettings := { Tcp : option TCPSettings; Http : option HTTPSettings }.

Record TrafficPolicy := {
  LoadBalancer : option LoadBalancerSettings;
  ConnectionPool : option ConnectionPoolSettings;
  OutlierDetectionOf : option OutlierDetection;
  Tls : option TLSSettings;
  PortLevelSettings : list PortTrafficPolicy
}.

Record Subset := {
  SubsetName : string;
  SubsetLabels : gmap string string;
  SubsetTrafficPolicy : option TrafficPolicy
}.

Record DestinationRule := {
  Host : string;
  RuleTrafficPolicy : option TrafficPolicy;
  Subsets : list Subset
}.

(** [model.Config] holding a destination rule. *)
Record Config := { ConfigMetaOf : ConfigMeta; Spec : DestinationRule }.

(** *** [model.Service], the mesh configuration and the push context *)

Record Service := { Hostname : string; MeshExternal : bool; Attributes : ServiceAttributes }.

Record MeshConfig := {
  MeshConnectTimeout : Duration;
  DnsRefreshRate : option Duration;
  OutboundClusterStatName : string
}.

Record PushContext := {
  Mesh : MeshConfig;
  ServiceAccounts : gmap string (gmap Z (list string))
}.

(** One call of [push.AddMetric]. The metrics of a push are the calls made,
    in order. *)
Record MetricCall := {
  Metric : MetricName;
  MetricKey : string;
  MetricProxy : Proxy;
  MetricMsg : string
}.

(** *** [apiv2.Cluster] *)

Inductive ClusterDiscoveryType :=
  | Cluster_Type (type : DiscoveryType)
  | Cluster_ClusterType (custom : CustomClusterType).

Record ClusterLoadAssignment := {
  ClusterName : string;
  Endpoints : list LocalityLbEndpoints
}.

Inductive ConfigSourceSpecifier :=
  | ConfigSource_Path (path : string)
  | ConfigSource_Ads.

Record ConfigSource := {
  ConfigSourceSpecifierOf : ConfigSourceSpecifier;
  InitialFetchTimeoutOf : option Duration
}.

Record EdsClusterConfig := { ServiceName : string; EdsConfig : option ConfigSource }.

Record Cluster := {
  Name : string;
  AltStatName : string;
  ClusterDiscoveryTypeOf : option ClusterDiscoveryType;
  EdsClusterConfigOf : option EdsClusterConfig;
  DnsLookupFamilyOf : DnsLookupFamily;
  DnsRefreshRateOf : option Duration;
  RespectDnsTtl : bool;
  LoadAssignment : option ClusterLoadAssignment;
  ClusterMetadata : option Metadata;
  Rest : ClusterRest
}.

(** ClusterBuilder interface provides an abstraction for building Envoy
    Clusters. *)
Record ClusterBuilder := { proxy : Proxy; push : PushContext }.

(** The options of [applyTrafficPolicy]. The cluster they point to is
    passed, and returned, beside them. *)
Record buildClusterOpts := {
  optsPush : PushContext;
  policy : option TrafficPolicy;
  port : option Port;
  serviceAccounts : list string;
  istioMtlsSni : string;
  simpleTLSSni : string;
  clusterMode : ClusterMode;
  direction : TrafficDirection;
  optsProxy : Proxy;
  meshExternal : bool;
  serviceMTLSMode : MutualTLSMode
}.

(** *** What the file uses of the rest of the package and of its imports *)
Variable applyTrafficPolicy : buildClusterOpts → Cluster → Cluster.
Variable setUpstreamProtocol : Proxy → Cluster → Port → TrafficDirection → Cluster.
Variable buildLocalityLbEndpoints :
  PushContext → NetworkView → Service → Z → list (gmap string string) → list LocalityLbEndpoints.
Variable BuildSubsetKey : TrafficDirection → string → string → Z → string.
Variable BuildDNSSrvSubsetKey : TrafficDirection → string → string → Z → string.
Variable BuildStatPrefix : string → string → string → Port → ServiceAttributes → string.
Variable BuildConfigInfoMetadata : ConfigMeta → Metadata.
Variable AddSubsetToMetadata : option Metadata → string → option Metadata.
Variable PushDestinationRule : PushContext → Proxy → Service → option Config.
Variable BestEffortInferServiceMTLSMode : PushContext → Service → Port → MutualTLSMode.
Variable DurationToProtoDuration : option Duration → option Duration.
Variable DefaultLbType : SimpleLB.
Variable InitialFetchTimeout : option Duration.
(** The zero value of the fields in [ClusterRest]. *)
Variable zeroRest : ClusterRest.

(** *** Field assignments *)

Definition setEdsClusterConfig (v : option EdsClusterConfig) (c : Cluster) : Cluster :=
  {| Name := Name c; AltStatName := AltStatName c;
     ClusterDiscoveryTypeOf := ClusterDiscoveryTypeOf c; EdsClusterConfigOf := v;
     DnsLookupFamilyOf := DnsLookupFamilyOf c; DnsRefreshRateOf := DnsRefreshRateOf c;
     RespectDnsTtl := RespectDnsTtl c; LoadAssignment := LoadAssignment c;
     ClusterMetadata := ClusterMetadata c; Rest := Rest c |}.

Definition setDns (family : DnsLookupFamily) (rate : option Duration) (respect : bool)
    (c : Cluster) : Cluster :=
  {| Name := Name c; AltStatName := AltStatName c;
     ClusterDiscoveryTypeOf := ClusterDiscoveryTypeOf c;
     EdsClusterConfigOf := EdsClusterConfigOf c;
     DnsLookupFamilyOf := family; DnsRefreshRateOf := rate;
     RespectDnsTtl := respect; LoadAssignment := LoadAssignment c;
     ClusterMetadata := ClusterMetadata c; Rest := Rest c |}.

Definition setLoadAssignment (v : option ClusterLoadAssignment) (c : Cluster) : Cluster :=
  {| Name := Name c; AltStatName := AltStatName c;
     ClusterDiscoveryTypeOf := ClusterDiscoveryTypeOf c;
     EdsClusterConfigOf := EdsClusterConfigOf c;
     DnsLookupFamilyOf := DnsLookupFamilyOf c; DnsRefreshRateOf := DnsRefreshRateOf c;
     RespectDnsTtl := RespectDnsTtl c; LoadAssignment := v;
     ClusterMetadata := ClusterMetadata c; Rest := Rest c |}.

Definition setMetadata (v : option Metadata) (c : Cluster) : Cluster :=
  {| Name := Name c; AltStatName := AltStatName c;
     ClusterDiscoveryTypeOf := ClusterDiscoveryTypeOf c;
     EdsClusterConfigOf := EdsClusterConfigOf c;
     DnsLookupFamilyOf := DnsLookupFamilyOf c; DnsRefreshRateOf := DnsRefreshRateOf c;
     RespectDnsTtl := RespectDnsTtl c; LoadAssignment := LoadAssignment c;
     ClusterMetadata := v; Rest := Rest c |}.

Definition setAltStatName (v : string) (c : Cluster) : Cluster :=
  {| Name := Name c; AltStatName := v;
     ClusterDiscoveryTypeOf := ClusterDiscoveryTypeOf c;
     EdsClusterConfigOf := EdsClusterConfigOf c;
     DnsLookupFamilyOf := DnsLookupFamilyOf c; DnsRefreshRateOf := DnsRefreshRateOf c;
     RespectDnsTtl := RespectDnsTtl c; LoadAssignment := LoadAssignment c;
     ClusterMetadata := ClusterMetadata c; Rest := Rest c |}.

(** [opts.policy = p] and [opts.istioMtlsSni = sni]. *)
Definition setPolicy (p : option TrafficPolicy) (o : buildClusterOpts) : buildClusterOpts :=
  {| optsPush := optsPush o; policy := p; port := port o;
     serviceAccounts := serviceAccounts o; istioMtlsSni := istioMtlsSni o;
     simpleTLSSni := simpleTLSSni o; clusterMode := clusterMode o;
     direction := direction o; optsProxy := optsProxy o;
     meshExternal := meshExternal o; serviceMTLSMode := serviceMTLSMode o |}.

Definition setIstioMtlsSni (sni : string) (o : buildClusterOpts) : buildClusterOpts :=
  {| optsPush := optsPush o; policy := policy o; port := port o;
     serviceAccounts := serviceAccounts o; istioMtlsSni := sni;
     simpleTLSSni := simpleTLSSni o; clusterMode := clusterMode o;
     direction := direction o; optsProxy := optsProxy o;
     meshExternal := meshExternal o; serviceMTLSMode := serviceMTLSMode o |}.

(** *** The builder *)

Definition defaultDestinationRule : DestinationRule :=
  {| Host := ""; RuleTrafficPolicy := None; Subsets := [] |}.

(** [cluster.GetType()]: STATIC unless the discovery type is a
    [Cluster_Type]. *)
Definition GetType (c : Cluster) : DiscoveryType :=
  match ClusterDiscoveryTypeOf c with
  | Some (Cluster_Type t) => t
  | _ => STATIC
  end.

(** castDestinationRuleOrDefault returns the destination rule enclosed by
    the config, if not null. Otherwise, return default (empty) DR. *)
Definition castDestinationRuleOrDefault (config : option Config) : DestinationRule :=
  match config with
  | Some c => Spec c
  | None => defaultDestinationRule
  end.

(** maybeApplyEdsConfig applies EdsClusterConfig on the passed in cluster if
    it is an EDS type of cluster. *)
Definition maybeApplyEdsConfig (cluster : Cluster) : Cluster :=
  let apply :=
    setEdsClusterConfig
      (Some {| ServiceName := Name cluster;
               EdsConfig := Some {| ConfigSourceSpecifierOf := ConfigSource_Ads;
                                    InitialFetchTimeoutOf := InitialFetchTimeout |} |})
      cluster in
  match ClusterDiscoveryTypeOf cluster with
  | Some (Cluster_Type t) => if decide (t = EDS) then apply else cluster
  | _ => apply
  end.

(** defaultTrafficPolicy builds a default traffic policy applying default
    connection timeouts. *)
Definition defaultTrafficPolicy (cb : ClusterBuilder) (discoveryType : DiscoveryType)
    : TrafficPolicy :=
  let lbPolicy :=
    if decide (discoveryType = ORIGINAL_DST) then PASSTHROUGH else DefaultLbType in
  {| LoadBalancer :=
       Some {| LbPolicyOf := Some (LoadBalancerSettings_Simple lbPolicy) |};
     ConnectionPool :=
       Some {| Tcp := Some {| MaxConnections := 0;
                              ConnectTimeout :=
                                Some {| Seconds := Seconds (MeshConnectTimeout (Mesh (push cb)));
                                        Nanos := Nanos (MeshConnectTimeout (Mesh (push cb))) |} |};
               Http := None |};
     OutlierDetectionOf := None; Tls := None; PortLevelSettings := [] |}.

(** The message of the metric for a cluster without endpoints. *)
Definition noEndpointsMsg (discoveryType : DiscoveryType) (name : string) : string :=
  DiscoveryType_String discoveryType +:+ " cluster without endpoints " +:+ name
    +:+ " found while pushing CDS".

(** buildDefaultCluster builds the default cluster and also applies default
    traffic policy. The result is the cluster, or nil, and the metrics of
    the push. *)
Definition buildDefaultCluster (cb : ClusterBuilder) (name : string)
    (discoveryType : DiscoveryType) (localityLbEndpoints : list LocalityLbEndpoints)
    (direction0 : TrafficDirection) (port0 : option Port) (meshExternal0 : bool)
    (metrics : list MetricCall) : option Cluster * list MetricCall :=
  let cluster :=
    {| Name := name; AltStatName := "";
       ClusterDiscoveryTypeOf := Some (Cluster_Type discoveryType);
       EdsClusterConfigOf := None; DnsLookupFamilyOf := AUTO; DnsRefreshRateOf := None;
       RespectDnsTtl := false; LoadAssignment := None; ClusterMetadata := None;
       Rest := zeroRest |} in
  let applyDefault cluster :=
    let opts :=
      {| optsPush := push cb; policy := Some (defaultTrafficPolicy cb discoveryType);
         port := port0; serviceAccounts := []; istioMtlsSni := ""; simpleTLSSni := "";
         clusterMode := DefaultClusterMode; direction := direction0;
         optsProxy := proxy cb; meshExternal := meshExternal0;
         serviceMTLSMode := MTLSUnknown |} in
    (Some (applyTrafficPolicy opts cluster), metrics) in
  let static cluster :=
    if decide (length localityLbEndpoints = 0) then
      (None,
       metrics ++ [ {| Metric := DNSNoEndpointClusters; MetricKey := Name cluster;
                       MetricProxy := proxy cb;
                       MetricMsg := noEndpointsMsg discoveryType (Name cluster) |} ])
    else
      applyDefault
        (setLoadAssignment
           (Some {| ClusterName := name; Endpoints := localityLbEndpoints |}) cluster) in
  match discoveryType with
  | STRICT_DNS =>
      static (setDns V4_ONLY (DurationToProtoDuration (DnsRefreshRate (Mesh (push cb)))) true
                cluster)
  | STATIC => static cluster
  | _ => applyDefault cluster
  end.

(** The state of the loop over the subsets of [applyDestinationRule]. *)
Record loopState := {
  opts : buildClusterOpts;
  subsetClusters : list Cluster;
  pushMetrics : list MetricCall
}.

(** The body of the loop over the subsets. [cluster] is the default
    cluster, after its traffic policy. *)
Definition subsetStep (cb : ClusterBuilder) (cluster : Cluster)
    (clusterMode0 : ClusterMode) (service : Service) (port0 : Port)
    (proxyNetworkView : NetworkView) (destinationRule : DestinationRule)
    (clusterMetadata : option Metadata) (st : loopState) (subset : Subset) : loopState :=
  let '(subsetClusterName, defaultSni) :=
    if decide (clusterMode0 = DefaultClusterMode) then
      (BuildSubsetKey TrafficDirectionOutbound (SubsetName subset) (Hostname service)
         (PortNumber port0),
       BuildDNSSrvSubsetKey TrafficDirectionOutbound (SubsetName subset) (Hostname service)
         (PortNumber port0))
    else
      (BuildDNSSrvSubsetKey TrafficDirectionOutbound (SubsetName subset) (Hostname service)
         (PortNumber port0),
       "") in
  let lbEndpoints :=
    if decide (GetType cluster ≠ EDS ∧ size (SubsetLabels subset) ≠ 0) then
      buildLocalityLbEndpoints (push cb) proxyNetworkView service (PortNumber port0)
        [SubsetLabels subset]
    else [] in
  let '(built, metrics) :=
    buildDefaultCluster cb subsetClusterName (GetType cluster) lbEndpoints
      TrafficDirectionOutbound None (MeshExternal service) (pushMetrics st) in
  match built with
  | None => {| opts := opts st; subsetClusters := subsetClusters st; pushMetrics := metrics |}
  | Some subsetCluster =>
      let subsetCluster :=
        if decide (OutboundClusterStatName (Mesh (push cb)) ≠ "") then
          setAltStatName
            (BuildStatPrefix (OutboundClusterStatName (Mesh (push cb))) (Hostname service)
               (SubsetName subset) port0 (Attributes service))
            subsetCluster
        else subsetCluster in
      let subsetCluster :=
        setUpstreamProtocol (proxy cb) subsetCluster port0 TrafficDirectionOutbound in
      let opts0 := setIstioMtlsSni defaultSni (setPolicy (RuleTrafficPolicy destinationRule) (opts st)) in
      let subsetCluster := applyTrafficPolicy opts0 subsetCluster in
      let '(opts0, subsetCluster) :=
        match SubsetTrafficPolicy subset with
        | Some p =>
            let opts1 := setPolicy (Some p) opts0 in
            (opts1, applyTrafficPolicy opts1 subsetCluster)
        | None => (opts0, subsetCluster)
        end in
      let subsetCluster := maybeApplyEdsConfig subsetCluster in
      let subsetCluster :=
        setMetadata (AddSubsetToMetadata clusterMetadata (SubsetName subset)) subsetCluster in
      {| opts := opts0; subsetClusters := subsetClusters st ++ [subsetCluster];
         pushMetrics := metrics |}
  end.

(** The options [applyDestinationRule] starts from. *)
Definition initialOpts (cb : ClusterBuilder) (clusterMode0 : ClusterMode)
    (service : Service) (port0 : Port) (destinationRule : DestinationRule)
    : buildClusterOpts :=
  if decide (clusterMode0 = DefaultClusterMode) then
    {| optsPush := push cb; policy := RuleTrafficPolicy destinationRule;
       port := Some port0;
       serviceAccounts :=
         default [] (ServiceAccounts (push cb) !! Hostname service ≫= (.!! PortNumber port0));
       istioMtlsSni :=
         BuildDNSSrvSubsetKey TrafficDirectionOutbound "" (Hostname service) (PortNumber port0);
       simpleTLSSni := Hostname service;
       clusterMode := clusterMode0; direction := TrafficDirectionOutbound;
       optsProxy := proxy cb; meshExternal := MeshExternal service;
       serviceMTLSMode := BestEffortInferServiceMTLSMode (push cb) service port0 |}
  else
    {| optsPush := push cb; policy := RuleTrafficPolicy destinationRule;
       port := Some port0; serviceAccounts := []; istioMtlsSni := ""; simpleTLSSni := "";
       clusterMode := clusterMode0; direction := TrafficDirectionOutbound;
       optsProxy := proxy cb; meshExternal := false; serviceMTLSMode := MTLSUnknown |}.

(** applyDestinationRule applies the destination rule if it exists for the
    Service. It returns the subset clusters if any created as it applies the
    destination rule. The result is the default cluster as the call leaves
    it, the subset clusters and the metrics of the push. *)
Definition applyDestinationRule (cb : ClusterBuilder) (cluster : Cluster)
    (clusterMode0 : ClusterMode) (service : Service) (port0 : Port)
    (proxyNetworkView : NetworkView) (metrics : list MetricCall)
    : Cluster * list Cluster * list MetricCall :=
  let destRule := PushDestinationRule (push cb) (proxy cb) service in
  let destinationRule := castDestinationRuleOrDefault destRule in
  let opts0 := initialOpts cb clusterMode0 service port0 destinationRule in
  let cluster := applyTrafficPolicy opts0 cluster in
  let cluster := maybeApplyEdsConfig cluster in
  let clusterMetadata :=
    match destRule with
    | Some config => Some (BuildConfigInfoMetadata (ConfigMetaOf config))
    | None => None
    end in
  let cluster :=
    match destRule with
    | Some _ => setMetadata clusterMetadata cluster
    | None => cluster
    end in
  let st :=
    foldl (subsetStep cb cluster clusterMode0 service port0 proxyNetworkView
             destinationRule clusterMetadata)
      {| opts := opts0; subsetClusters := []; pushMetrics := metrics |}
      (Subsets destinationRule) in
  (cluster, subsetClusters st, pushMetrics st).

(** ** Properties *)

(** The name and the SNI the loop computes for a subset. *)
Definition subsetClusterName (clusterMode0 : ClusterMode) (service : Service)
    (port0 : Port) (subset : Subset) : string :=
  if decide (clusterMode0 = DefaultClusterMode) then
    BuildSubsetKey TrafficDirectionOutbound (SubsetName subset) (Hostname service)
      (PortNumber port0)
  else
    BuildDNSSrvSubsetKey TrafficDirectionOutbound (SubsetName subset) (Hostname service)
      (PortNumber port0).

Definition subsetSni (clusterMode0 : ClusterMode) (service : Service)
    (port0 : Port) (subset : Subset) : string :=
  if decide (clusterMode0 = DefaultClusterMode) then
    BuildDNSSrvSubsetKey TrafficDirectionOutbound (SubsetName subset) (Hostname service)
      (PortNumber port0)
  else "".

(** The endpoints the loop hands to [buildDefaultCluster] for a subset,
    given the discovery type of the default cluster. *)
Definition subsetEndpoints (cb : ClusterBuilder) (discoveryType : DiscoveryType)
    (service : Service) (port0 : Port) (proxyNetworkView : NetworkView)
    (subset : Subset) : list LocalityLbEndpoints :=
  if decide (discoveryType ≠ EDS ∧ size (SubsetLabels subset) ≠ 0) then
    buildLocalityLbEndpoints (push cb) proxyNetworkView service (PortNumber port0)
      [SubsetLabels subset]
  else [].

(** A cluster of these type and endpoints is refused. *)
Definition rejected (discoveryType : DiscoveryType) (endpoints : list LocalityLbEndpoints)
    : Prop :=
  (discoveryType = STRICT_DNS ∨ discoveryType = STATIC) ∧ endpoints = [].

#[local] Instance rejected_dec discoveryType endpoints :
  Decision (rejected discoveryType endpoints).
Proof.
  unfold rejected. destruct endpoints; [|right; by intros [_ ?]].
  destruct (decide (discoveryType = STRICT_DNS ∨ discoveryType = STATIC));
    [left|right]; tauto.
Defined.

(** The cluster [buildDefaultCluster] starts from, with its DNS settings and
    load assignment, before any traffic policy. *)
Definition bareCluster (cb : ClusterBuilder) (name : string)
    (discoveryType : DiscoveryType) (endpoints : list LocalityLbEndpoints) : Cluster :=
  {| Name := name; AltStatName := "";
     ClusterDiscoveryTypeOf := Some (Cluster_Type discoveryType);
     EdsClusterConfigOf := None;
     DnsLookupFamilyOf := if decide (discoveryType = STRICT_DNS) then V4_ONLY else AUTO;
     DnsRefreshRateOf :=
       if decide (discoveryType = STRICT_DNS)
       then DurationToProtoDuration (DnsRefreshRate (Mesh (push cb))) else None;
     RespectDnsTtl := bool_decide (discoveryType = STRICT_DNS);
     LoadAssignment :=
       if decide (discoveryType = STRICT_DNS ∨ discoveryType = STATIC)
       then Some {| ClusterName := name; Endpoints := endpoints |} else None;
     ClusterMetadata := None; Rest := zeroRest |}.

(** The options under which [buildDefaultCluster] applies the default
    policy. *)
Definition defaultOpts (cb : ClusterBuilder) (discoveryType : DiscoveryType)
    (direction0 : TrafficDirection) (port0 : option Port) (meshExternal0 : bool)
    : buildClusterOpts :=
  {| optsPush := push cb; policy := Some (defaultTrafficPolicy cb discoveryType);
     port := port0; serviceAccounts := []; istioMtlsSni := ""; simpleTLSSni := "";
     clusterMode := DefaultClusterMode; direction := direction0;
     optsProxy := proxy cb; meshExternal := meshExternal0;
     serviceMTLSMode := MTLSUnknown |}.

(** The metric of a refused cluster. *)
Definition noEndpointsMetric (cb : ClusterBuilder) (name : string)
    (discoveryType : DiscoveryType) : MetricCall :=
  {| Metric := DNSNoEndpointClusters; MetricKey := name; MetricProxy := proxy cb;
     MetricMsg := noEndpointsMsg discoveryType name |}.

(** The steps of the loop between the default policy and the policy of the
    rule, and those after the last policy. *)
Definition prepareSubset (cb : ClusterBuilder) (service : Service) (port0 : Port)
    (subset : Subset) (c : Cluster) : Cluster :=
  setUpstreamProtocol (proxy cb)
    (if decide (OutboundClusterStatName (Mesh (push cb)) ≠ "") then
       setAltStatName
         (BuildStatPrefix (OutboundClusterStatName (Mesh (push cb))) (Hostname service)
            (SubsetName subset) port0 (Attributes service)) c
     else c)
    port0 TrafficDirectionOutbound.

Definition finishSubset (clusterMetadata : option Metadata) (subset : Subset)
    (c : Cluster) : Cluster :=
  setMetadata (AddSubsetToMetadata clusterMetadata (SubsetName subset))
    (maybeApplyEdsConfig c).

(** The options of the policies of a subset cluster: those of the default
    cluster with the SNI of the subset; the policy is set at each step. *)
Definition subsetOpts (cb : ClusterBuilder) (clusterMode0 : ClusterMode)
    (service : Service) (port0 : Port) (rule : DestinationRule) (subset : Subset)
    (p : option TrafficPolicy) : buildClusterOpts :=
  setPolicy p
    (setIstioMtlsSni (subsetSni clusterMode0 service port0 subset)
       (initialOpts cb clusterMode0 service port0 rule)).

(** The policies applied to a subset cluster after the default one: the
    policy of the rule, then the policy of the subset when it has one. *)
Definition applyRuleAndSubsetPolicy (cb : ClusterBuilder) (clusterMode0 : ClusterMode)
    (service : Service) (port0 : Port) (rule : DestinationRule) (subset : Subset)
    (c : Cluster) : Cluster :=
  let o := subsetOpts cb clusterMode0 service port0 rule subset in
  let c := applyTrafficPolicy (o (RuleTrafficPolicy rule)) c in
  match SubsetTrafficPolicy subset with
  | Some p => applyTrafficPolicy (o (Some p)) c
  | None => c
  end.

(** The cluster of one subset, by itself: what the loop appends for it. *)
Definition compileSubset (cb : ClusterBuilder) (discoveryType : DiscoveryType)
    (clusterMode0 : ClusterMode) (service : Service) (port0 : Port)
    (proxyNetworkView : NetworkView) (rule : DestinationRule)
    (clusterMetadata : option Metadata) (subset : Subset) : option Cluster :=
  let name := subsetClusterName clusterMode0 service port0 subset in
  let endpoints := subsetEndpoints cb discoveryType service port0 proxyNetworkView subset in
  if decide (rejected discoveryType endpoints) then None
  else
    Some (finishSubset clusterMetadata subset
            (applyRuleAndSubsetPolicy cb clusterMode0 service port0 rule subset
               (prepareSubset cb service port0 subset
                  (applyTrafficPolicy
                     (defaultOpts cb discoveryType TrafficDirectionOutbound None
                        (MeshExternal service))
                     (bareCluster cb name discoveryType endpoints))))).

(** The metrics of one subset: one when its cluster is refused. *)
Definition subsetMetrics (cb : ClusterBuilder) (discoveryType : DiscoveryType)
    (clusterMode0 : ClusterMode) (service : Service) (port0 : Port)
    (proxyNetworkView : NetworkView) (subset : Subset) : list MetricCall :=
  if decide (rejected discoveryType
               (subsetEndpoints cb discoveryType service port0 proxyNetworkView subset))
  then [noEndpointsMetric cb (subsetClusterName clusterMode0 service port0 subset)
          discoveryType]
  else [].

(** The default cluster as [applyDestinationRule] leaves it. *)
Definition ruledCluster (cb : ClusterBuilder) (cluster : Cluster)
    (clusterMode0 : ClusterMode) (service : Service) (port0 : Port) : Cluster :=
  let destRule := PushDestinationRule (push cb) (proxy cb) service in
  let c :=
    maybeApplyEdsConfig
      (applyTrafficPolicy
         (initialOpts cb clusterMode0 service port0 (castDestinationRuleOrDefault destRule))
         cluster) in
  match destRule with
  | Some config => setMetadata (Some (BuildConfigInfoMetadata (ConfigMetaOf config))) c
  | None => c
  end.

(** The metadata of the rule, handed to the subsets. *)
Definition ruleMetadata (cb : ClusterBuilder) (service : Service) : option Metadata :=
  (λ config, BuildConfigInfoMetadata (ConfigMetaOf config))
    <$> PushDestinationRule (push cb) (proxy cb) service.

Lemma buildDefaultCluster_rejected cb name discoveryType endpoints direction0 port0
    meshExternal0 metrics :
  rejected discoveryType endpoints →
  buildDefaultCluster cb name discoveryType endpoints direction0 port0 meshExternal0 metrics
  = (None, metrics ++ [noEndpointsMetric cb name discoveryType]).
Proof. intros [[-> | ->] ->]; reflexivity. Qed.

Lemma buildDefaultCluster_built cb name discoveryType endpoints direction0 port0
    meshExternal0 metrics :
  ¬ rejected discoveryType endpoints →
  buildDefaultCluster cb name discoveryType endpoints direction0 port0 meshExternal0 metrics
  = (Some (applyTrafficPolicy
             (defaultOpts cb discoveryType direction0 port0 meshExternal0)
             (bareCluster cb name discoveryType endpoints)),
     metrics).
Proof.
  intros Hrej. unfold buildDefaultCluster, rejected in *.
  destruct discoveryType; try reflexivity;
    (rewrite decide_False; [reflexivity|]);
    destruct endpoints; simpl; try done; tauto.
Qed.

(** The options of the loop differ from the initial ones in the policy and
    in the SNI only, which each iteration sets before it uses them. *)
Definition sameButPolicy (o o0 : buildClusterOpts) : Prop :=
  ∀ p sni, setIstioMtlsSni sni (setPolicy p o) = setIstioMtlsSni sni (setPolicy p o0).

Lemma sameButPolicy_refl o : sameButPolicy o o.
Proof. done. Qed.

Lemma sameButPolicy_set o o0 p sni :
  sameButPolicy o o0 → sameButPolicy (setIstioMtlsSni sni (setPolicy p o)) o0.
Proof. intros H p' sni'. by rewrite <- (H p' sni'). Qed.

Lemma sameButPolicy_set2 o o0 p p' sni :
  sameButPolicy o o0 →
  sameButPolicy (setPolicy p' (setIstioMtlsSni sni (setPolicy p o))) o0.
Proof. intros H p'' sni'. by rewrite <- (H p'' sni'). Qed.

Lemma subsetStep_spec cb cluster clusterMode0 service port0 view rule md st subset :
  sameButPolicy (opts st) (initialOpts cb clusterMode0 service port0 rule) →
  let st' := subsetStep cb cluster clusterMode0 service port0 view rule md st subset in
  sameButPolicy (opts st') (initialOpts cb clusterMode0 service port0 rule) ∧
  subsetClusters st'
  = subsetClusters st
    ++ option_list (compileSubset cb (GetType cluster) clusterMode0 service port0 view
                      rule md subset) ∧
  pushMetrics st'
  = pushMetrics st
    ++ subsetMetrics cb (GetType cluster) clusterMode0 service port0 view subset.
Proof.
  intros Hsame. unfold subsetStep, compileSubset, subsetMetrics.
  unfold applyRuleAndSubsetPolicy, subsetOpts, finishSubset, prepareSubset.
  unfold subsetClusterName, subsetSni, subsetEndpoints.
  destruct (decide (clusterMode0 = DefaultClusterMode)) as [Hmode|Hmode];
    cbv zeta beta iota;
    (destruct (decide (rejected _ _)) as [Hrej|Hrej];
     [ rewrite (buildDefaultCluster_rejected _ _ _ _ _ _ _ _ Hrej); simpl;
       rewrite app_nil_r; by repeat split
     | rewrite (buildDefaultCluster_built _ _ _ _ _ _ _ _ Hrej) ]);
    rewrite (Hsame (RuleTrafficPolicy rule));
    destruct (SubsetTrafficPolicy subset) as [p|]; simpl;
    rewrite ?app_nil_r;
    (split; [|split; reflexivity]);
    first [ apply sameButPolicy_set2, sameButPolicy_refl
          | apply sameButPolicy_set, sameButPolicy_refl ].
Qed.

Lemma subsetLoop_spec cb cluster clusterMode0 service port0 view rule md subsets st :
  sameButPolicy (opts st) (initialOpts cb clusterMode0 service port0 rule) →
  let st' := foldl (subsetStep cb cluster clusterMode0 service port0 view rule md) st subsets in
  subsetClusters st'
  = subsetClusters st
    ++ omap (compileSubset cb (GetType cluster) clusterMode0 service port0 view rule md)
         subsets ∧
  pushMetrics st'
  = pushMetrics st
    ++ subsets ≫= subsetMetrics cb (GetType cluster) clusterMode0 service port0 view.
Proof.
  revert st. induction subsets as [|subset subsets IH]; intros st Hsame; simpl.
  - by rewrite !app_nil_r.
  - destruct (subsetStep_spec cb cluster clusterMode0 service port0 view rule md st subset
                Hsame) as (Hsame' & Hcl & Hms).
    destruct (IH _ Hsame') as [-> ->]. rewrite Hcl, Hms, <- !app_assoc.
    split; [|done]. f_equal.
    by destruct (compileSubset _ _ _ _ _ _ _ _ subset).
Qed.

Lemma applyDestinationRule_spec cb cluster clusterMode0 service port0 view metrics :
  let rule := castDestinationRuleOrDefault (PushDestinationRule (push cb) (proxy cb) service) in
  let cluster' := ruledCluster cb cluster clusterMode0 service port0 in
  applyDestinationRule cb cluster clusterMode0 service port0 view metrics
  = (cluster',
     omap (compileSubset cb (GetType cluster') clusterMode0 service port0 view rule
             (ruleMetadata cb service)) (Subsets rule),
     metrics
     ++ Subsets rule ≫= subsetMetrics cb (GetType cluster') clusterMode0 service port0 view).
Proof.
  intros rule cluster'. unfold applyDestinationRule.
  fold rule.
  assert (match PushDestinationRule (push cb) (proxy cb) service with
          | Some config => Some (BuildConfigInfoMetadata (ConfigMetaOf config))
          | None => None
          end = ruleMetadata cb service) as -> by done.
  assert (match PushDestinationRule (push cb) (proxy cb) service with
          | Some _ =>
              setMetadata (ruleMetadata cb service)
                (maybeApplyEdsConfig
                   (applyTrafficPolicy (initialOpts cb clusterMode0 service port0 rule) cluster))
          | None =>
              maybeApplyEdsConfig
                (applyTrafficPolicy (initialOpts cb clusterMode0 service port0 rule) cluster)
          end = cluster') as ->.
  { unfold cluster', ruledCluster, ruleMetadata. fold rule.
    by destruct (PushDestinationRule (push cb) (proxy cb) service). }
  match goal with |- context [foldl ?f ?st ?l] =>
    destruct (subsetLoop_spec cb cluster' clusterMode0 service port0 view rule
                (ruleMetadata cb service) l st (sameButPolicy_refl _)) as [-> ->]
  end.
  done.
Qed.


Lemma compileSubset_Some cb discoveryType clusterMode0 service port0 view rule md subset sc :
  compileSubset cb discoveryType clusterMode0 service port0 view rule md subset = Some sc ↔
  ¬ rejected discoveryType (subsetEndpoints cb discoveryType service port0 view subset) ∧
  sc = finishSubset md subset
         (applyRuleAndSubsetPolicy cb clusterMode0 service port0 rule subset
            (prepareSubset cb service port0 subset
               (applyTrafficPolicy
                  (defaultOpts cb discoveryType TrafficDirectionOutbound None
                     (MeshExternal service))
                  (bareCluster cb (subsetClusterName clusterMode0 service port0 subset)
                     discoveryType
                     (subsetEndpoints cb discoveryType service port0 view subset))))).
Proof.
  unfold compileSubset. case_decide; split; try done; try tauto.
  - intros [= <-]. done.
  - intros [_ ->]. done.
Qed.

Lemma length_omap_filter {A B} (f : A → option B) (P : A → Prop)
    `{∀ x, Decision (P x)} l :
  (∀ x, f x = None ↔ P x) →
  length (omap f l) = length (filter (λ x, ¬ P x) l).
Proof.
  intros Hf. induction l as [|x l IH]; [done|].
  change (omap f (x :: l))
    with (match f x with Some y => y :: omap f l | None => omap f l end).
  rewrite filter_cons. destruct (f x) as [y|] eqn:Hx.
  - rewrite decide_True; [simpl; by rewrite IH|].
    intros HP. apply Hf in HP. congruence.
  - rewrite decide_False; [done|]. intros HP. apply HP. by apply Hf.
Qed.

Lemma bind_filter_singleton {A B} (g : A → B) (P : A → Prop)
    `{∀ x, Decision (P x)} (l : list A) :
  l ≫= (λ x, if decide (P x) then [g x] else []) = g <$> filter P l.
Proof.
  induction l as [|x l IH]; [done|].
  rewrite bind_cons, filter_cons, IH. by destruct (decide (P x)).
Qed.

Lemma omap_compile_filter {A B} (f : A → option B) (P : A → Prop) `{∀ x, Decision (P x)}
    (R : A → B → Prop) l :
  (∀ x, P x → f x = None) →
  (∀ x, ¬ P x → ∃ y, f x = Some y ∧ R x y) →
  Forall2 R (filter (λ x, ¬ P x) l) (omap f l).
Proof.
  intros Hnone Hsome. induction l as [|x l IH]; simpl; [constructor|].
  rewrite filter_cons. destruct (decide (P x)) as [HP|HP].
  - rewrite decide_False by tauto. by rewrite Hnone.
  - rewrite decide_True by done. destruct (Hsome x HP) as (y & -> & HR).
    by constructor.
Qed.

(** *** The claims about the cluster builder *)

(** C3. [buildDefaultCluster] with discovery type STRICT_DNS or STATIC and
    no endpoints returns no cluster and records one metric, the one for
    clusters without endpoints. In [applyDestinationRule] a subset refused in
    this way does not stop the loop: the subsets before it and after it get
    the clusters they would get without it, every subset that is not
    refused gets a cluster, and the metrics grow by one for each refused
    subset and by nothing else. *)
Theorem empty_endpoints_rejected cb :
  (∀ name discoveryType direction0 port0 meshExternal0 metrics,
     discoveryType = STRICT_DNS ∨ discoveryType = STATIC →
     buildDefaultCluster cb name discoveryType [] direction0 port0 meshExternal0 metrics
     = (None, metrics ++ [noEndpointsMetric cb name discoveryType])) ∧
  (∀ cluster clusterMode0 service port0 view metrics,
     let rule := castDestinationRuleOrDefault (PushDestinationRule (push cb) (proxy cb) service) in
     let out := applyDestinationRule cb cluster clusterMode0 service port0 view metrics in
     let discoveryType := GetType out.1.1 in
     let refused subset :=
       rejected discoveryType (subsetEndpoints cb discoveryType service port0 view subset) in
     let compile :=
       compileSubset cb discoveryType clusterMode0 service port0 view rule
         (ruleMetadata cb service) in
     (∀ subset, refused subset ↔ compile subset = None) ∧
     length out.1.2 = length (filter (λ subset, ¬ refused subset) (Subsets rule)) ∧
     out.2
     = metrics
       ++ ((λ subset,
              noEndpointsMetric cb (subsetClusterName clusterMode0 service port0 subset)
                discoveryType)
           <$> filter refused (Subsets rule)) ∧
     (∀ before subset after,
        Subsets rule = before ++ subset :: after → refused subset →
        out.1.2 = omap compile before ++ omap compile after)).
Proof.
  split.
  - intros name discoveryType direction0 port0 meshExternal0 metrics Htype.
    by apply buildDefaultCluster_rejected.
  - intros cluster clusterMode0 service port0 view metrics rule out discoveryType
      refused compile.
    subst out discoveryType refused compile.
    rewrite applyDestinationRule_spec. simpl. fold rule.
    set (discoveryType := GetType (ruledCluster cb cluster clusterMode0 service port0)).
    assert (∀ subset,
              rejected discoveryType
                (subsetEndpoints cb discoveryType service port0 view subset) ↔
              compileSubset cb discoveryType clusterMode0 service port0 view rule
                (ruleMetadata cb service) subset = None) as Hrefused.
    { intros subset. unfold compileSubset. by case_decide. }
    split; [done|]. split; [|split].
    + apply length_omap_filter. intros subset. symmetry. apply Hrefused.
    + f_equal. apply bind_filter_singleton.
    + intros before subset after -> Hrej.
      rewrite omap_app. simpl. apply Hrefused in Hrej. by rewrite Hrej.
Qed.

(** *** Further properties of the builder *)

(** [buildDefaultCluster] returns nil in one case only, a STRICT_DNS or
    STATIC cluster without endpoints, and it records a metric in that case
    only: for every other discovery type, and for these two with an
    endpoint, a cluster is returned and the metrics of the push are left as
    they were. *)
Theorem buildDefaultCluster_refused_iff cb name discoveryType endpoints direction0 port0
    meshExternal0 metrics :
  let result :=
    buildDefaultCluster cb name discoveryType endpoints direction0 port0 meshExternal0
      metrics in
  (result.1 = None ↔
   (discoveryType = STRICT_DNS ∨ discoveryType = STATIC) ∧ length endpoints = 0) ∧
  (result.1 = None ↔ result.2 ≠ metrics) ∧
  (result.1 ≠ None ↔ result.2 = metrics) ∧
  length result.2 = length metrics + (if result.1 is Some _ then 0 else 1).
Proof.
  intros result. subst result.
  assert (∀ m : MetricCall, metrics ++ [m] ≠ metrics) as Hgrow.
  { intros m Heq. apply (f_equal length) in Heq. rewrite length_app in Heq.
    simpl in Heq. lia. }
  destruct (decide (rejected discoveryType endpoints)) as [Hrej|Hrej].
  - rewrite (buildDefaultCluster_rejected _ _ _ _ _ _ _ _ Hrej). simpl.
    destruct Hrej as [Htype ->]. rewrite length_app. simpl.
    repeat split; try done; try (intros; by apply Hgrow).
    intros Heq. by apply Hgrow in Heq.
  - rewrite (buildDefaultCluster_built _ _ _ _ _ _ _ _ Hrej). simpl.
    repeat split; try done; try lia.
    intros [Htype Hlen]. destruct Hrej. split; [done|]. by destruct endpoints.
Qed.

(** [maybeApplyEdsConfig] writes the EDS config of a cluster and nothing
    else, and applying it twice is applying it once. A cluster whose
    discovery type is one of the types of the enumeration other than EDS is
    returned as it is. Every other cluster gets the config: the EDS
    clusters, and also a cluster with a custom cluster type or with no
    discovery type set, which the type switch lets through. *)
Theorem maybeApplyEdsConfig_effect cluster :
  let edsConfig :=
    Some {| ServiceName := Name cluster;
            EdsConfig := Some {| ConfigSourceSpecifierOf := ConfigSource_Ads;
                                 InitialFetchTimeoutOf := InitialFetchTimeout |} |} in
  maybeApplyEdsConfig (maybeApplyEdsConfig cluster) = maybeApplyEdsConfig cluster ∧
  maybeApplyEdsConfig cluster
  = setEdsClusterConfig (EdsClusterConfigOf (maybeApplyEdsConfig cluster)) cluster ∧
  (∀ t, ClusterDiscoveryTypeOf cluster = Some (Cluster_Type t) → t ≠ EDS →
        maybeApplyEdsConfig cluster = cluster) ∧
  (ClusterDiscoveryTypeOf cluster = Some (Cluster_Type EDS) →
   EdsClusterConfigOf (maybeApplyEdsConfig cluster) = edsConfig) ∧
  (∀ custom, ClusterDiscoveryTypeOf cluster = Some (Cluster_ClusterType custom) →
             EdsClusterConfigOf (maybeApplyEdsConfig cluster) = edsConfig) ∧
  (ClusterDiscoveryTypeOf cluster = None →
   EdsClusterConfigOf (maybeApplyEdsConfig cluster) = edsConfig).
Proof.
  destruct cluster as [name alt type eds family rate respect la md rest].
  unfold maybeApplyEdsConfig, setEdsClusterConfig. simpl.
  destruct type as [[t|custom]|]; simpl.
  - destruct (decide (t = EDS)) as [->|Hne]; simpl.
    + repeat split; try done; intros t [= <-]; done.
    + rewrite decide_False by done.
      repeat split; try done. intros [= ->]; done.
  - repeat split; done.
  - repeat split; done.
Qed.

(** Without a destination rule for the service, [applyDestinationRule]
    applies the traffic policy under options whose policy is nil and then
    the EDS config, sets no metadata on the cluster, returns no subset
    cluster and records no metric. *)
Theorem without_destination_rule cb cluster clusterMode0 service port0 view metrics :
  PushDestinationRule (push cb) (proxy cb) service = None →
  let o := initialOpts cb clusterMode0 service port0 defaultDestinationRule in
  policy o = None ∧
  applyDestinationRule cb cluster clusterMode0 service port0 view metrics
  = (maybeApplyEdsConfig (applyTrafficPolicy o cluster), [], metrics).
Proof.
  intros Hnone o. split.
  - unfold o, initialOpts. by case_decide.
  - unfold applyDestinationRule. rewrite Hnone. reflexivity.
Qed.

(** When the default cluster leaves its policies with a discovery type
    other than STRICT_DNS and STATIC, no subset is refused: the rule yields
    one cluster per subset, in the order of the subsets, each carrying the
    metadata of the rule with the name of its subset added, and no metric is
    recorded. *)
Theorem dynamic_subsets_all_built cb cluster clusterMode0 service port0 view metrics :
  let rule := castDestinationRuleOrDefault (PushDestinationRule (push cb) (proxy cb) service) in
  let out := applyDestinationRule cb cluster clusterMode0 service port0 view metrics in
  let discoveryType := GetType out.1.1 in
  discoveryType ≠ STRICT_DNS → discoveryType ≠ STATIC →
  Forall2
    (λ subset subsetCluster,
       compileSubset cb discoveryType clusterMode0 service port0 view rule
         (ruleMetadata cb service) subset = Some subsetCluster ∧
       ClusterMetadata subsetCluster
       = AddSubsetToMetadata (ruleMetadata cb service) (SubsetName subset))
    (Subsets rule) out.1.2 ∧
  out.2 = metrics.
Proof.
  intros rule out discoveryType. subst out discoveryType.
  rewrite applyDestinationRule_spec. simpl. fold rule.
  set (discoveryType := GetType (ruledCluster cb cluster clusterMode0 service port0)).
  intros Hdns Hstatic.
  assert (∀ subset,
            ¬ rejected discoveryType
                (subsetEndpoints cb discoveryType service port0 view subset)) as Hbuilt.
  { intros subset [[?|?] _]; done. }
  split.
  - induction (Subsets rule) as [|subset subsets IH]; [constructor|].
    change (omap ?f (subset :: subsets))
      with (match f subset with Some y => y :: omap f subsets | None => omap f subsets end).
    destruct (compileSubset cb discoveryType clusterMode0 service port0 view rule
                (ruleMetadata cb service) subset) as [subsetCluster|] eqn:Hc.
    + constructor; [|exact IH]. split; [done|].
      apply compileSubset_Some in Hc as [_ ->]. reflexivity.
    + unfold compileSubset in Hc. rewrite decide_False in Hc by apply Hbuilt. done.
  - replace (Subsets rule ≫= subsetMetrics cb discoveryType clusterMode0 service port0 view)
      with (@nil MetricCall); [by rewrite app_nil_r|].
    induction (Subsets rule) as [|subset subsets IH]; [done|].
    rewrite bind_cons, <- IH. unfold subsetMetrics.
    by rewrite decide_False by apply Hbuilt.
Qed.

(** When the default cluster leaves its policies as a STRICT_DNS or STATIC
    cluster (or with a custom or unset discovery type, which [GetType]
    reports as STATIC), a subset without labels never gets a cluster: no
    endpoints are looked up for it, its cluster is refused and one metric
    names it. The subset clusters are those of the subsets with labels. *)
Theorem static_subset_without_labels cb cluster clusterMode0 service port0 view metrics :
  let rule := castDestinationRuleOrDefault (PushDestinationRule (push cb) (proxy cb) service) in
  let out := applyDestinationRule cb cluster clusterMode0 service port0 view metrics in
  let discoveryType := GetType out.1.1 in
  let compile :=
    compileSubset cb discoveryType clusterMode0 service port0 view rule
      (ruleMetadata cb service) in
  discoveryType = STRICT_DNS ∨ discoveryType = STATIC →
  (∀ subset, size (SubsetLabels subset) = 0 → compile subset = None) ∧
  out.1.2 = omap compile (filter (λ subset, size (SubsetLabels subset) ≠ 0) (Subsets rule)) ∧
  (∀ subset, subset ∈ Subsets rule → size (SubsetLabels subset) = 0 →
     noEndpointsMetric cb (subsetClusterName clusterMode0 service port0 subset) discoveryType
     ∈ out.2).
Proof.
  intros rule out discoveryType compile. subst out discoveryType compile.
  rewrite applyDestinationRule_spec. simpl. fold rule.
  set (discoveryType := GetType (ruledCluster cb cluster clusterMode0 service port0)).
  intros Htype.
  assert (∀ subset, size (SubsetLabels subset) = 0 →
            rejected discoveryType
              (subsetEndpoints cb discoveryType service port0 view subset)) as Hrej.
  { intros subset Hsize. split; [done|].
    unfold subsetEndpoints. rewrite decide_False; [done|]. intros [_ ?]. done. }
  assert (∀ subset, size (SubsetLabels subset) = 0 →
            compileSubset cb discoveryType clusterMode0 service port0 view rule
              (ruleMetadata cb service) subset = None) as Hnone.
  { intros subset Hsize. unfold compileSubset. by rewrite decide_True by by apply Hrej. }
  split; [done|]. split.
  - induction (Subsets rule) as [|subset subsets IH]; [done|].
    change (omap ?f (subset :: subsets))
      with (match f subset with Some y => y :: omap f subsets | None => omap f subsets end).
    rewrite filter_cons.
    destruct (decide (size (SubsetLabels subset) ≠ 0)) as [Hsize|Hsize].
    + change (omap ?f (subset :: ?l))
        with (match f subset with Some y => y :: omap f l | None => omap f l end).
      by rewrite IH.
    + rewrite Hnone; [done|]. lia.
  - intros subset Hin Hsize. apply elem_of_app. right.
    apply list_elem_of_bind. exists subset. split; [|done].
    unfold subsetMetrics. rewrite decide_True by by apply Hrej.
    by left.
Qed.

(** *** What the helpers outside the file do to a cluster *)

(** The reading of the policy a cluster carries off the fields the helpers
    write. *)
Variable policyIn : ClusterRest → option TrafficPolicy.

(** Modelled from the spec: the resolved traffic policy of a cluster
    definition (section 3), which [applyTrafficPolicy] writes;
    [applyTrafficPolicy] is not among the sources. *)
Definition activePolicy (c : Cluster) : option TrafficPolicy := policyIn (Rest c).

(** Modelled from the spec: [applyTrafficPolicy] and [setUpstreamProtocol]
    are not among the sources. A policy is applied "by replacing the whole
    policy object, not deep-merged field-by-field" (section 3), "each step
    fully replacing the active policy object", and a policy is applied "if
    present" (section 4.2): under options with a policy the cluster carries
    that policy, whatever it carried; under options without one it carries
    what it carried. Setting the upstream protocol is no policy step. *)
Definition replacesPolicy : Prop :=
  (∀ o c p, policy o = Some p → activePolicy (applyTrafficPolicy o c) = Some p) ∧
  (∀ o c, policy o = None → activePolicy (applyTrafficPolicy o c) = activePolicy c) ∧
  (∀ px c port1 d, activePolicy (setUpstreamProtocol px c port1 d) = activePolicy c).

(** The first policy present. *)
Definition orElse (p q : option TrafficPolicy) : option TrafficPolicy :=
  match p with
  | Some _ => p
  | None => q
  end.





Lemma maybeApplyEdsConfig_policy c : activePolicy (maybeApplyEdsConfig c) = activePolicy c.
Proof.
  unfold maybeApplyEdsConfig.
  destruct (ClusterDiscoveryTypeOf c) as [[t|custom]|] eqn:Ht; try done.
  by destruct (decide (t = EDS)).
Qed.


(** The policy a subset cluster carries. *)
Lemma subsetCluster_policy cb clusterMode0 service port0 rule md subset c :
  replacesPolicy →
  activePolicy
    (finishSubset md subset
       (applyRuleAndSubsetPolicy cb clusterMode0 service port0 rule subset
          (prepareSubset cb service port0 subset c)))
  = orElse (SubsetTrafficPolicy subset) (orElse (RuleTrafficPolicy rule) (activePolicy c)).
Proof.
  intros (Hsome & Hnone & Hprotocol).
  unfold finishSubset.
  change (activePolicy (setMetadata ?v ?c0)) with (activePolicy c0).
  rewrite maybeApplyEdsConfig_policy.
  assert (activePolicy (prepareSubset cb service port0 subset c) = activePolicy c) as Hprep.
  { unfold prepareSubset. rewrite Hprotocol. by case_decide. }
  unfold applyRuleAndSubsetPolicy. cbv zeta.
  destruct (SubsetTrafficPolicy subset) as [p|] eqn:Hp; simpl.
  - by apply Hsome.
  - destruct (RuleTrafficPolicy rule) as [q|] eqn:Hq; simpl.
    + by apply Hsome.
    + by rewrite Hnone.
Qed.

(** *** The claims that rest on the helpers outside the file *)

(** C1. The policy a cluster carries is resolved in order, by whole policy
    objects. [buildDefaultCluster] leaves a cluster with the default policy
    of its discovery type. [applyDestinationRule] then leaves the default
    cluster with the policy of the destination rule when the rule has one,
    and with what it carried otherwise; and it leaves the cluster of each
    subset with the policy of the subset when the subset has one, otherwise
    with the policy of the rule when the rule has one, otherwise with the
    default policy of the discovery type. So a subset cluster with a policy
    of its own carries exactly that policy, and the default cluster the
    policy of the rule. *)
Theorem policy_resolution cb cluster clusterMode0 service port0 view metrics :
  replacesPolicy →
  let rule := castDestinationRuleOrDefault (PushDestinationRule (push cb) (proxy cb) service) in
  let out := applyDestinationRule cb cluster clusterMode0 service port0 view metrics in
  let discoveryType := GetType out.1.1 in
  (∀ name type endpoints direction0 port1 meshExternal0 metrics0 built,
     (buildDefaultCluster cb name type endpoints direction0 port1 meshExternal0 metrics0).1
     = Some built →
     activePolicy built = Some (defaultTrafficPolicy cb type)) ∧
  activePolicy out.1.1 = orElse (RuleTrafficPolicy rule) (activePolicy cluster) ∧
  Forall2
    (λ subset subsetCluster,
       activePolicy subsetCluster
       = orElse (SubsetTrafficPolicy subset)
           (orElse (RuleTrafficPolicy rule) (Some (defaultTrafficPolicy cb discoveryType))) ∧
       (∀ p, SubsetTrafficPolicy subset = Some p → activePolicy subsetCluster = Some p))
    (filter (λ subset,
               ¬ rejected discoveryType
                   (subsetEndpoints cb discoveryType service port0 view subset))
       (Subsets rule))
    out.1.2.
Proof.
  intros Hcontract rule out discoveryType.
  pose proof Hcontract as (Hsome & Hnone & Hprotocol).
  subst out discoveryType. rewrite applyDestinationRule_spec. simpl. fold rule.
  assert (∀ name type endpoints direction0 port1 meshExternal0,
            activePolicy
              (applyTrafficPolicy (defaultOpts cb type direction0 port1 meshExternal0)
                 (bareCluster cb name type endpoints))
            = Some (defaultTrafficPolicy cb type)) as Hdefault.
  { intros. by apply Hsome. }
  split; [|split].
  - intros name type endpoints direction0 port1 meshExternal0 metrics0 built.
    destruct (decide (rejected type endpoints)) as [Hrej|Hrej].
    + by rewrite (buildDefaultCluster_rejected _ _ _ _ _ _ _ _ Hrej).
    + rewrite (buildDefaultCluster_built _ _ _ _ _ _ _ _ Hrej). simpl.
      intros [= <-]. apply Hdefault.
  - unfold ruledCluster. fold rule.
    assert (policy (initialOpts cb clusterMode0 service port0 rule) = RuleTrafficPolicy rule)
      as Hpolicy.
    { unfold initialOpts. by case_decide. }
    assert (activePolicy
              (maybeApplyEdsConfig
                 (applyTrafficPolicy (initialOpts cb clusterMode0 service port0 rule) cluster))
            = orElse (RuleTrafficPolicy rule) (activePolicy cluster)) as Hruled.
    { rewrite maybeApplyEdsConfig_policy.
      destruct (RuleTrafficPolicy rule) as [p|] eqn:Hp; simpl.
      - by apply Hsome.
      - by apply Hnone. }
    by destruct (PushDestinationRule (push cb) (proxy cb) service).
  - apply (omap_compile_filter _
             (λ subset, rejected (GetType (ruledCluster cb cluster clusterMode0 service port0))
                          (subsetEndpoints cb _ service port0 view subset))).
    + intros subset Hrej. unfold compileSubset. by rewrite decide_True.
    + intros subset Hrej. eexists. split.
      { unfold compileSubset. rewrite decide_False by done. reflexivity. }
      rewrite (subsetCluster_policy _ _ _ _ _ _ _ _ Hcontract), Hdefault.
      split; [done|]. by intros p ->.
Qed.

End builder.

(** ** A concrete builder

    Instances of what the file takes from the rest of the package, so that
    the builder runs. The fields of the cluster written by [applyTrafficPolicy]
    are the list of the policies applied to the cluster, in order; endpoints
    are addresses, found among the attributes of the service by their labels;
    the keys of the subsets are written as the mesh writes them. *)
Module Example.

Abbreviation policyT := (@TrafficPolicy unit unit unit unit unit).
Abbreviation clusterT := (@Cluster string string unit (list (option policyT))).
Abbreviation optsT := (@buildClusterOpts unit unit unit unit unit unit).
Abbreviation serviceT := (@Service (list (string * gmap string string))).
Abbreviation ruleT := (@DestinationRule unit unit unit unit unit).
Abbreviation configT := (@Config string unit unit unit unit unit).

Definition recordPolicy (o : optsT) (c : clusterT) : clusterT :=
  {| Name := Name c; AltStatName := AltStatName c;
     ClusterDiscoveryTypeOf := ClusterDiscoveryTypeOf c;
     EdsClusterConfigOf := EdsClusterConfigOf c;
     DnsLookupFamilyOf := DnsLookupFamilyOf c; DnsRefreshRateOf := DnsRefreshRateOf c;
     RespectDnsTtl := RespectDnsTtl c; LoadAssignment := LoadAssignment c;
     ClusterMetadata := ClusterMetadata c; Rest := Rest c ++ [policy o] |}.

Definition keepProtocol (_ : unit) (c : clusterT) (_ : Port) (_ : TrafficDirection)
    : clusterT := c.

Definition endpointsByLabels (_ : PushContext) (_ : unit) (service : serviceT) (_ : Z)
    (labels : list (gmap string string)) : list string :=
  (filter (λ ep, Forall (λ wanted, map_Forall (λ k v, ep.2 !! k = Some v) wanted) labels)
     (Attributes service)).*1.

Definition directionName (d : TrafficDirection) : string :=
  match d with
  | TrafficDirectionInbound => "inbound"
  | TrafficDirectionOutbound => "outbound"
  end.

Definition subsetKey (d : TrafficDirection) (subset host : string) (p : Z) : string :=
  directionName d +:+ "|" +:+ pretty p +:+ "|" +:+ subset +:+ "|" +:+ host.

Definition dnsSrvSubsetKey (d : TrafficDirection) (subset host : string) (p : Z) : string :=
  directionName d +:+ "_." +:+ pretty p +:+ "_." +:+ subset +:+ "_." +:+ host.

Definition statPrefix (pattern host subset : string) (_ : Port)
    (_ : list (string * gmap string string)) : string :=
  pattern +:+ host +:+ subset.

Definition subsetMetadata (md : option string) (subset : string) : option string :=
  (λ m, m +:+ "/" +:+ subset) <$> md.

Definition noMTLS (_ : PushContext) (_ : serviceT) (_ : Port) : MutualTLSMode := MTLSUnknown.

Definition policyOf (lb : SimpleLB) : policyT :=
  {| LoadBalancer := Some {| LbPolicyOf := Some (LoadBalancerSettings_Simple lb) |};
     ConnectionPool := None; OutlierDetectionOf := None; Tls := None;
     PortLevelSettings := [] |}.

(** The rule of service svc: LEAST_CONN for the service, subset v2 (which no
    endpoint is in) and subset v1, and subset canary with a policy of its
    own. *)
Definition svcRule : ruleT :=
  {| Host := "svc"; RuleTrafficPolicy := Some (policyOf LEAST_CONN);
     Subsets :=
       [ {| SubsetName := "v2"; SubsetLabels := {["version" := "v2"]};
            SubsetTrafficPolicy := None |};
         {| SubsetName := "v1"; SubsetLabels := {["version" := "v1"]};
            SubsetTrafficPolicy := None |};
         {| SubsetName := "canary"; SubsetLabels := {["track" := "canary"]};
            SubsetTrafficPolicy := Some (policyOf RANDOM) |} ] |}.

Definition rulesOf (_ : PushContext) (_ : unit) (service : serviceT) : option configT :=
  if decide (Hostname service = "svc")
  then Some {| ConfigMetaOf := "svc-rule"; Spec := svcRule |}
  else None.

Definition svc : serviceT :=
  {| Hostname := "svc"; MeshExternal := false;
     Attributes :=
       [ ("10.0.0.1", {["version" := "v1"]});
         ("10.0.0.2", <["track" := "canary"]> {["version" := "v1"]}) ] |}.

Definition port80 : Port := {| PortName := "http"; PortNumber := 80; Protocol := "HTTP" |}.

Definition builder : @ClusterBuilder unit :=
  {| proxy := tt;
     push := {| Mesh := {| MeshConnectTimeout := {| Seconds := 10; Nanos := 0 |};
                           DnsRefreshRate := None; OutboundClusterStatName := "" |};
                ServiceAccounts := ∅ |} |}.

Definition build (name : string) (type : DiscoveryType) (endpoints : list string)
    : option clusterT * list (@MetricCall unit) :=
  buildDefaultCluster recordPolicy id ROUND_ROBIN [] builder name type endpoints
    TrafficDirectionOutbound (Some port80) false [].

(** The default cluster of svc, as the caller builds it. *)
Definition defaultCluster (type : DiscoveryType) : clusterT :=
  default
    {| Name := ""; AltStatName := ""; ClusterDiscoveryTypeOf := None;
       EdsClusterConfigOf := None; DnsLookupFamilyOf := AUTO; DnsRefreshRateOf := None;
       RespectDnsTtl := false; LoadAssignment := None; ClusterMetadata := None;
       Rest := [] |}
    (build "outbound|80||svc" type ["10.0.0.1"; "10.0.0.2"]).1.

Definition compile (type : DiscoveryType)
    : clusterT * list clusterT * list (@MetricCall unit) :=
  applyDestinationRule recordPolicy keepProtocol endpointsByLabels subsetKey dnsSrvSubsetKey
    statPrefix (λ meta, meta) subsetMetadata rulesOf noMTLS id ROUND_ROBIN None []
    builder (defaultCluster type) DefaultClusterMode svc port80 tt [].

(** With endpoint discovery every subset gets a cluster. The policies applied
    to each cluster, in order: the default one, the one of the rule, and for
    canary its own. *)
Example compile_EDS :
  (Name <$> (compile EDS).1.2) = ["outbound|80|v2|svc"; "outbound|80|v1|svc"; "outbound|80|canary|svc"]
  ∧ Rest (compile EDS).1.1
    = [Some (defaultTrafficPolicy ROUND_ROBIN builder EDS); Some (policyOf LEAST_CONN)]
  ∧ (Rest <$> (compile EDS).1.2)
    = [ [Some (defaultTrafficPolicy ROUND_ROBIN builder EDS); Some (policyOf LEAST_CONN)];
        [Some (defaultTrafficPolicy ROUND_ROBIN builder EDS); Some (policyOf LEAST_CONN)];
        [Some (defaultTrafficPolicy ROUND_ROBIN builder EDS); Some (policyOf LEAST_CONN);
         Some (policyOf RANDOM)] ]
  ∧ (compile EDS).2 = [].
Proof. repeat split; vm_compute; reflexivity. Qed.


(** The policy a cluster of the example carries: the last one recorded. *)
Definition lastPolicy (rest : list (option policyT)) : option policyT :=
  last (omap id rest).

Lemma recordPolicy_replaces : replacesPolicy recordPolicy keepProtocol lastPolicy.
Proof.
  split; [|split].
  - intros o c p Hp. unfold activePolicy, lastPolicy. simpl.
    rewrite Hp, omap_app. simpl. apply last_snoc.
  - intros o c Hp. unfold activePolicy, lastPolicy. simpl.
    rewrite Hp, omap_app. simpl. by rewrite app_nil_r.
  - done.
Qed.


(** Witness of C1: the default cluster of svc carries the policy of the rule,
    and the cluster of subset canary its own. *)
Lemma policy_resolution_witness :
  activePolicy lastPolicy (compile EDS).1.1 = Some (policyOf LEAST_CONN)
  ∧ (activePolicy lastPolicy <$> (compile EDS).1.2)
    = [Some (policyOf LEAST_CONN); Some (policyOf LEAST_CONN); Some (policyOf RANDOM)].
Proof.
  destruct
    (policy_resolution recordPolicy keepProtocol endpointsByLabels subsetKey dnsSrvSubsetKey
       statPrefix (λ meta, meta) subsetMetadata rulesOf noMTLS id ROUND_ROBIN None []
       lastPolicy builder (defaultCluster EDS) DefaultClusterMode svc port80 tt []
       recordPolicy_replaces)
    as (_ & Hdefault & _).
  split; [exact Hdefault|]. vm_compute. reflexivity.
Defined.

(** Witness of C3: a STATIC cluster without endpoints. *)
Lemma empty_endpoints_rejected_witness :
  build "outbound|80|v2|svc" STATIC []
  = (None, [noEndpointsMetric builder "outbound|80|v2|svc" STATIC]).
Proof.
  exact (proj1
    (empty_endpoints_rejected recordPolicy keepProtocol endpointsByLabels subsetKey
       dnsSrvSubsetKey statPrefix (λ meta, meta) subsetMetadata rulesOf noMTLS id
       ROUND_ROBIN None [] builder)
    "outbound|80|v2|svc" STATIC TrafficDirectionOutbound (Some port80) false []
    (or_intror eq_refl)).
Defined.

(** In the STATIC compile only subset v2 is refused: the loop goes on to v1
    and canary, and there is one metric. *)
Example compile_STATIC :
  (Name <$> (compile STATIC).1.2) = ["outbound|80|v1|svc"; "outbound|80|canary|svc"]
  ∧ (compile STATIC).2 = [noEndpointsMetric builder "outbound|80|v2|svc" STATIC]
  ∧ (LoadAssignment <$> (compile STATIC).1.2)
    = [ Some {| ClusterName := "outbound|80|v1|svc"; Endpoints := ["10.0.0.1"; "10.0.0.2"] |};
        Some {| ClusterName := "outbound|80|canary|svc"; Endpoints := ["10.0.0.2"] |} ].
Proof. repeat split; vm_compute; reflexivity. Qed.


(** A service the mesh has no rule for. *)
Definition plain : serviceT :=
  {| Hostname := "plain"; MeshExternal := false; Attributes := [ ("10.0.1.1", ∅) ] |}.

Lemma without_destination_rule_witness :
  applyDestinationRule recordPolicy keepProtocol endpointsByLabels subsetKey dnsSrvSubsetKey
    statPrefix (λ meta, meta) subsetMetadata rulesOf noMTLS id ROUND_ROBIN None []
    builder (defaultCluster EDS) DefaultClusterMode plain port80 tt []
  = (maybeApplyEdsConfig None
       (recordPolicy
          (initialOpts dnsSrvSubsetKey noMTLS builder DefaultClusterMode plain port80
             defaultDestinationRule)
          (defaultCluster EDS)),
     [], []).
Proof.
  exact (proj2
    (without_destination_rule recordPolicy keepProtocol endpointsByLabels subsetKey
       dnsSrvSubsetKey statPrefix (λ meta, meta) subsetMetadata rulesOf noMTLS id
       ROUND_ROBIN None [] builder (defaultCluster EDS) DefaultClusterMode plain port80 tt []
       eq_refl)).
Defined.

Lemma dynamic_subsets_all_built_witness :
  length (compile EDS).1.2 = length (Subsets svcRule) ∧ (compile EDS).2 = [].
Proof.
  destruct
    (dynamic_subsets_all_built recordPolicy keepProtocol endpointsByLabels subsetKey
       dnsSrvSubsetKey statPrefix (λ meta, meta) subsetMetadata rulesOf noMTLS id
       ROUND_ROBIN None [] builder (defaultCluster EDS) DefaultClusterMode svc port80 tt [])
    as [Hall Hmetrics].
  - vm_compute. discriminate.
  - vm_compute. discriminate.
  - split; [|exact Hmetrics]. symmetry. exact (Forall2_length _ _ _ Hall).
Defined.

(** A rule with a subset that selects every endpoint: it has no labels. *)
Definition allRule : ruleT :=
  {| Host := "svc"; RuleTrafficPolicy := None;
     Subsets :=
       [ {| SubsetName := "all"; SubsetLabels := ∅; SubsetTrafficPolicy := None |};
         {| SubsetName := "v1"; SubsetLabels := {["version" := "v1"]};
            SubsetTrafficPolicy := None |} ] |}.

Definition rulesWithAll (_ : PushContext) (_ : unit) (_ : serviceT) : option configT :=
  Some {| ConfigMetaOf := "all-rule"; Spec := allRule |}.

Definition compileAll (type : DiscoveryType)
    : clusterT * list clusterT * list (@MetricCall unit) :=
  applyDestinationRule recordPolicy keepProtocol endpointsByLabels subsetKey dnsSrvSubsetKey
    statPrefix (λ meta, meta) subsetMetadata rulesWithAll noMTLS id ROUND_ROBIN None []
    builder (defaultCluster type) DefaultClusterMode svc port80 tt [].

Lemma static_subset_without_labels_witness :
  noEndpointsMetric builder "outbound|80|all|svc" STATIC ∈ (compileAll STATIC).2.
Proof.
  refine (proj2 (proj2
    (static_subset_without_labels recordPolicy keepProtocol endpointsByLabels subsetKey
       dnsSrvSubsetKey statPrefix (λ meta, meta) subsetMetadata rulesWithAll noMTLS id
       ROUND_ROBIN None [] builder (defaultCluster STATIC) DefaultClusterMode svc port80 tt []
       (or_intror eq_refl)))
    {| SubsetName := "all"; SubsetLabels := ∅; SubsetTrafficPolicy := None |} _ eq_refl).
  left.
Defined.

(** The subset without labels gets a cluster under endpoint discovery and
    none in a STATIC cluster, where the endpoints of the service are not
    looked at for it. *)
Example compileAll_types :
  (Name <$> (compileAll EDS).1.2) = ["outbound|80|all|svc"; "outbound|80|v1|svc"]
  ∧ (Name <$> (compileAll STATIC).1.2) = ["outbound|80|v1|svc"]
  ∧ (MetricKey <$> (compileAll STATIC).2) = ["outbound|80|all|svc"].
Proof. repeat split; vm_compute; reflexivity. Qed.
End Example.

End ClusterBuilder.

(* ===================================================================== *)
(** * The test client of the discovery service (init_test.go, first part) *)
(* ===================================================================== *)
Module AdsTestClient.

(** [binary.BigEndian.PutUint32] on a slice of four bytes: the bytes it
    writes, [b[0]] to [b[3]]. *)
Definition PutUint32 (v : N) : N * N * N * N :=
  ((N.shiftr v 24) `mod` 256, (N.shiftr v 16) `mod` 256, (N.shiftr v 8) `mod` 256,
   v `mod` 256)%N.

(** [net.IP.String] on a slice of four bytes: the bytes in decimal, with
    dots between them. *)
Definition IPv4_String (ipb : N * N * N * N) : string :=
  let '(a, b, c, d) := ipb in
  pretty a +:+ "." +:+ pretty b +:+ "." +:+ pretty c +:+ "." +:+ pretty d.

(** [testIP], of a [uint32]. *)
Definition testIP (id : N) : string := IPv4_String (PutUint32 id).

(** The type URL of a cluster load assignment. *)
Definition claTypeUrl : string := "type.googleapis.com/envoy.api.v2.ClusterLoadAssignment".

(** What a call comes to: its results, or a run-time panic. *)
Inductive outcome (E T : Type) :=
  | Returned (v : T)
  | Failed (err : E)
  | Panicked.
Arguments Returned {E T} v.
Arguments Failed {E T} err.
Arguments Panicked {E T}.

Section responses.
Context {AnyValue ClusterLoadAssignment Error : Type}.

(** [types.Any] *)
Record Any := { TypeUrl : string; Value : AnyValue }.

(** [xdsapi.DiscoveryResponse]. A resource is a pointer, which may be nil. *)
Record DiscoveryResponse := {
  VersionInfo : string;
  Resources : list (option Any);
  ResponseTypeUrl : string;
  Nonce : string
}.

(** [errors.New] and [ptypes.UnmarshalAny] into a cluster load assignment. *)
Variable errorsNew : string → Error.
Variable UnmarshalAny : Any → Error + ClusterLoadAssignment.

(** Extract cluster load assignment from a discovery response. The response
    is not nil. Indexing an empty slice panics, and so does reading a field
    of a nil resource. *)
Definition getLoadAssignment (res1 : DiscoveryResponse)
    : outcome Error ClusterLoadAssignment :=
  if decide (ResponseTypeUrl res1 ≠ claTypeUrl) then
    Failed (errorsNew ("Invalid typeURL" +:+ ResponseTypeUrl res1))
  else
    match Resources res1 with
    | [] => Panicked
    | None :: _ => Panicked
    | Some resource :: _ =>
        if decide (TypeUrl resource ≠ claTypeUrl) then
          Failed (errorsNew ("Invalid resource typeURL" +:+ TypeUrl resource))
        else
          match UnmarshalAny resource with
          | inl err => Failed err
          | inr cla => Returned cla
          end
    end.

(** ** Properties *)

(** [getLoadAssignment] returns a load assignment exactly when the response
    and its first resource both carry the type URL of load assignments and
    the first resource decodes: the result is that decoding. It panics
    exactly on a response of the right type URL whose resources are empty or
    start with nil. The resources after the first are never read. *)
Theorem getLoadAssignment_outcome res1 :
  (∀ cla,
     getLoadAssignment res1 = Returned cla ↔
     ResponseTypeUrl res1 = claTypeUrl ∧
     ∃ resource, head (Resources res1) = Some (Some resource) ∧
                 TypeUrl resource = claTypeUrl ∧ UnmarshalAny resource = inr cla) ∧
  (getLoadAssignment res1 = Panicked ↔
   ResponseTypeUrl res1 = claTypeUrl ∧
   (Resources res1 = [] ∨ head (Resources res1) = Some None)) ∧
  (∀ res2,
     ResponseTypeUrl res2 = ResponseTypeUrl res1 →
     ResponseTypeUrl res1 = claTypeUrl → head (Resources res2) = head (Resources res1) →
     getLoadAssignment res2 = getLoadAssignment res1) ∧
  (ResponseTypeUrl res1 ≠ claTypeUrl →
   getLoadAssignment res1 = Failed (errorsNew ("Invalid typeURL" +:+ ResponseTypeUrl res1))).
Proof.
  unfold getLoadAssignment. split; [|split; [|split]].
  - intros cla. case_decide as Hurl; [split; [done|]; by intros [? _]|].
    try apply dec_stable in Hurl.
    destruct (Resources res1) as [|[resource|] rest]; simpl.
    + split; [done|]. by intros (_ & ? & ? & _).
    + case_decide as Hres.
      { split; [done|]. by intros (_ & ? & [= <-] & ? & _). }
      try apply dec_stable in Hres.
      destruct (UnmarshalAny resource) as [err|cla'] eqn:Hun.
      * split; [done|]. intros (_ & ? & [= <-] & _ & Heq). congruence.
      * split.
        -- intros [= <-]. eauto.
        -- intros (_ & ? & [= <-] & _ & Heq). congruence.
    + split; [done|]. by intros (_ & ? & ? & _).
  - case_decide as Hurl; [split; [done|]; by intros [? _]|].
    try apply dec_stable in Hurl.
    destruct (Resources res1) as [|[resource|] rest]; simpl.
    + split; auto.
    + split; [|by intros [_ [?|?]]].
      case_decide; [done|]. by destruct (UnmarshalAny resource).
    + split; auto.
  - intros res2 Hurl2 Hurl1 Hhead. rewrite Hurl2.
    case_decide; [done|].
    destruct (Resources res1) as [|r1 rest1], (Resources res2) as [|r2 rest2];
      simpl in Hhead; try done.
    injection Hhead as ->. done.
  - intros Hurl. by rewrite decide_True.
Qed.
End responses.

(** No character of a decimal number is a dot. *)
Definition dot : Ascii.ascii := Ascii.ascii_of_nat 46.

Fixpoint dotless (s : string) : Prop :=
  match s with
  | EmptyString => True
  | String c s' => c ≠ dot ∧ dotless s'
  end.

Lemma pretty_N_go_dotless x s : dotless s → dotless (pretty_N_go x s).
Proof.
  revert s. induction (N.lt_wf_0 x) as [x _ IH]; intros s Hs.
  assert (x = 0 ∨ 0 < x)%N as [->|Hpos] by lia.
  - by rewrite pretty_N_go_0.
  - rewrite pretty_N_go_step by done. apply IH.
    { by apply N.div_lt. }
    split; [|done]. unfold pretty_N_char, dot. by repeat case_match.
Qed.

Lemma pretty_N_dotless (x : N) : dotless (pretty x).
Proof.
  unfold pretty, pretty_N. case_decide.
  - split; [|done]. unfold dot. discriminate.
  - by apply pretty_N_go_dotless.
Qed.

Lemma append_dot_inj a a' b b' :
  dotless a → dotless a' →
  a +:+ String dot b = a' +:+ String dot b' → a = a' ∧ b = b'.
Proof.
  revert a'. induction a as [|c a IH]; intros [|c' a']; simpl.
  - intros _ _ [= ->]. done.
  - intros _ [Hc' _] [= <- _]. done.
  - intros [Hc _] _ [= -> _]. done.
  - intros [_ Ha] [_ Ha'] [= -> Heq].
    destruct (IH a' Ha Ha' Heq) as [-> ->]. done.
Qed.

Lemma IPv4_String_inj ipb ipb' : IPv4_String ipb = IPv4_String ipb' → ipb = ipb'.
Proof.
  destruct ipb as [[[a b] c] d], ipb' as [[[a' b'] c'] d']. unfold IPv4_String.
  change "." with (String dot EmptyString). simpl.
  intros [Ha H]%append_dot_inj; [|apply pretty_N_dotless..].
  apply append_dot_inj in H as [Hb H]; [|apply pretty_N_dotless..].
  apply append_dot_inj in H as [Hc Hd]; [|apply pretty_N_dotless..].
  by rewrite (inj pretty _ _ Ha), (inj pretty _ _ Hb), (inj pretty _ _ Hc),
    (inj pretty _ _ Hd).
Qed.

(** A number below 2^32 is the sum of its four bytes. *)
Lemma uint32_bytes (v : N) :
  (v < 4294967296)%N →
  v = ((v / 16777216) `mod` 256 * 16777216 + (v / 65536) `mod` 256 * 65536
       + (v / 256) `mod` 256 * 256 + v `mod` 256)%N.
Proof.
  intros Hv.
  assert (v / 65536 = v / 256 / 256)%N as -> by by rewrite N.Div0.div_div.
  assert (v / 16777216 = v / 256 / 256 / 256)%N as -> by by rewrite !N.Div0.div_div.
  assert (v / 256 / 256 / 256 / 256 = 0)%N as Htop.
  { rewrite !N.Div0.div_div. by apply N.div_small. }
  pose proof (N.div_mod v 256 ltac:(done)) as H0.
  pose proof (N.div_mod (v / 256) 256 ltac:(done)) as H1.
  pose proof (N.div_mod (v / 256 / 256) 256 ltac:(done)) as H2.
  pose proof (N.div_mod (v / 256 / 256 / 256) 256 ltac:(done)) as H3.
  rewrite Htop in H3.
  generalize dependent (v `mod` 256)%N. intros r0.
  generalize dependent ((v / 256) `mod` 256)%N. intros r1.
  generalize dependent ((v / 256 / 256) `mod` 256)%N. intros r2.
  generalize dependent ((v / 256 / 256 / 256) `mod` 256)%N. intros r3.
  generalize dependent (v / 256 / 256 / 256)%N. intros q3.
  generalize dependent (v / 256 / 256)%N. intros q2.
  generalize dependent (v / 256)%N. intros q1.
  intros. lia.
Qed.

Lemma PutUint32_inj i j :
  (i < 2 ^ 32)%N → (j < 2 ^ 32)%N → PutUint32 i = PutUint32 j → i = j.
Proof.
  unfold PutUint32. rewrite !N.shiftr_div_pow2.
  change (2 ^ 32)%N with 4294967296%N. change (2 ^ 24)%N with 16777216%N.
  change (2 ^ 16)%N with 65536%N. change (2 ^ 8)%N with 256%N.
  intros Hi Hj [= H3 H2 H1 H0].
  rewrite (uint32_bytes i Hi), (uint32_bytes j Hj). by rewrite H3, H2, H1, H0.
Qed.

(** [testIP] gives distinct addresses to distinct identifiers: the address
    holds the four bytes of the identifier, most significant first, in
    decimal, and a decimal number holds no dot. *)
Theorem testIP_distinct i j :
  (i < 2 ^ 32)%N → (j < 2 ^ 32)%N → i ≠ j → testIP i ≠ testIP j.
Proof.
  intros Hi Hj Hne Heq. apply Hne.
  by apply PutUint32_inj, IPv4_String_inj.
Qed.

Lemma testIP_distinct_witness : testIP 167772161 ≠ testIP 167772417.
Proof.
  apply (testIP_distinct 167772161 167772417); [reflexivity|reflexivity|discriminate].
Defined.

Example testIP_octets :
  testIP 167772161 = "10.0.0.1" ∧ testIP 167772417 = "10.0.1.1"
  ∧ testIP 4294967295 = "255.255.255.255" ∧ testIP 0 = "0.0.0.0".
Proof. repeat split; vm_compute; reflexivity. Qed.

End AdsTestClient.

(* ===================================================================== *)
(** * The push session (aggregated discovery) *)
(* ===================================================================== *)
Module PushSession.

(** A discovery request, as the test client builds it: the nonce and the
    version the client answers to (none on a first request) and the error
    detail of a negative acknowledgment. Nonces and versions are opaque
    tokens; the server counts them. *)
Record Request := {
  ResponseNonce : option nat;
  VersionInfo : option nat;
  ErrorDetail : option string
}.

(** What reaches the session of one connection and resource type. *)
Inductive Event :=
  | ClientRequest (r : Request)
  | ConfigChange
  | Disconnect.

(** What the session does: a response sent with its nonce and version, or a
    rejection recorded as a diagnostic. *)
Inductive Output :=
  | Push (nonce version : nat)
  | Rejection (detail : string).

(** Modelled from the spec: the protocol session state per connection and
    resource type, whose code is not among the sources (the sources hold the
    test client only). The state is that of section 4.3: Uninitialized,
    AwaitingAck(nonce, sentVersion), Accepted(version), Closed; with the last
    accepted version of section 3 kept while a push is outstanding, and absent
    until a push has been acknowledged. *)
Inductive Session :=
  | Uninitialized
  | AwaitingAck (nonce sentVersion : nat) (accepted : option nat)
  | Accepted (accepted : option nat)
  | Closed.

(** Modelled from the spec: the server beside the session, the version of
    the current configuration and the next fresh nonce. *)
Record Server := { config : nat; nextNonce : nat }.

(** Modelled from the spec: a push. "Compile current configuration, assign a
    new version identifier and a fresh nonce, send response, enter
    AwaitingAck". *)
Definition send (sv : Server) (accepted : option nat) : Server * Session * list Output :=
  ({| config := config sv; nextNonce := S (nextNonce sv) |},
   AwaitingAck (nextNonce sv) (config sv) accepted,
   [Push (nextNonce sv) (config sv)]).

(** Modelled from the spec: the stale or mismatched nonce, on a session
    without an outstanding push. "Treat as a reconnect probe: if the client's
    reported version matches what the session already considers accepted, no
    push is sent; otherwise compile and push fresh configuration with a new
    nonce". A request with an error detail whose nonce is not the outstanding
    one is not described; it is recorded and sends nothing. *)
Definition probe (sv : Server) (s : Session) (accepted : option nat) (r : Request)
    : Server * Session * list Output :=
  match ErrorDetail r with
  | Some detail => (sv, s, [Rejection detail])
  | None =>
      if decide (is_Some accepted ∧ VersionInfo r = accepted) then (sv, s, [])
      else send sv accepted
  end.

(** Modelled from the spec: the transitions of section 4.3 on a client
    request. Initial request: push. Acknowledgment (the nonce is the
    outstanding one, no error detail): the sent version is accepted, and "if
    configuration changed again since the push was sent, immediately compile
    and send the next push". Negative acknowledgment (the nonce is the
    outstanding one, error detail): "remain at the previously Accepted
    version, record the rejection, do not retry automatically". A request
    with another nonce is the reconnect probe when no push is outstanding;
    while a push is outstanding it is stale and nothing is sent for it, since
    "flow control guarantees never more than one outstanding, unacknowledged
    push" and "no second push is sent while a prior push's nonce is
    unacknowledged" (sections 3, 4.3 and 8). *)
Definition onRequest (sv : Server) (s : Session) (r : Request)
    : Server * Session * list Output :=
  match s with
  | Uninitialized =>
      match ErrorDetail r with
      | Some detail => (sv, s, [Rejection detail])
      | None => send sv None
      end
  | AwaitingAck nonce sentVersion accepted =>
      if decide (ResponseNonce r = Some nonce) then
        match ErrorDetail r with
        | None =>
            if decide (config sv = sentVersion) then (sv, Accepted (Some sentVersion), [])
            else send sv (Some sentVersion)
        | Some detail => (sv, Accepted accepted, [Rejection detail])
        end
      else
        match ErrorDetail r with
        | Some detail => (sv, s, [Rejection detail])
        | None => (sv, s, [])
        end
  | Accepted accepted => probe sv s accepted r
  | Closed => (sv, s, [])
  end.

(** Modelled from the spec: a change of configuration reaches the session
    (the fan-out of the registry). The push transition is taken unless a push
    is outstanding ("no second push is sent while a prior push's nonce is
    unacknowledged") or the session has not started or is closed. *)
Definition onConfigChange (sv : Server) (s : Session) : Server * Session * list Output :=
  let sv' := {| config := S (config sv); nextNonce := nextNonce sv |} in
  match s with
  | Accepted accepted => send sv' accepted
  | _ => (sv', s, [])
  end.

(** Modelled from the spec: one step of the session. Disconnect: "discard
    all per-type session state; any push in flight is abandoned". *)
Definition step (sv : Server) (s : Session) (e : Event) : Server * Session * list Output :=
  match e with
  | ClientRequest r => onRequest sv s r
  | ConfigChange => onConfigChange sv s
  | Disconnect => (sv, Closed, [])
  end.

(** A run from a state: the outputs of each event, in order. *)
Fixpoint run (sv : Server) (s : Session) (es : list Event)
    : Server * Session * list (list Output) :=
  match es with
  | [] => (sv, s, [])
  | e :: es' =>
      let '(sv', s', out) := step sv s e in
      let '(sv'', s'', outs) := run sv' s' es' in
      (sv'', s'', out :: outs)
  end.

(** ** Properties *)

(** The outstanding push of a session: its nonce and version. *)
Definition outstanding (s : Session) : option (nat * nat) :=
  match s with
  | AwaitingAck nonce sentVersion _ => Some (nonce, sentVersion)
  | _ => None
  end.

(** The pushes among the outputs of a step. *)
Definition pushes (out : list Output) : list (nat * nat) :=
  omap (λ o, match o with Push n v => Some (n, v) | Rejection _ => None end) out.

(** The request acknowledges, or rejects, the push with the nonce. *)
Definition isAck (nonce : nat) (r : Request) : Prop :=
  ResponseNonce r = Some nonce ∧ ErrorDetail r = None.

Definition isNack (nonce : nat) (r : Request) : Prop :=
  ResponseNonce r = Some nonce ∧ is_Some (ErrorDetail r).

(** The initial server: configuration 0, no nonce used. *)
Definition initialServer : Server := {| config := 0; nextNonce := 0 |}.

(** All the pushes of a run, in order. *)
Definition allPushes (outs : list (list Output)) : list (nat * nat) :=
  pushes (concat outs).

(** What holds of the pushes sent so far: their nonces are below the next
    nonce and distinct, and the outstanding push is the last one sent. *)
Definition sentSoFar (sv : Server) (s : Session) (sent : list (nat * nat)) : Prop :=
  Forall (λ p, p.1 < nextNonce sv) sent ∧
  NoDup sent.*1 ∧
  ∀ p, outstanding s = Some p → last sent = Some p.

Lemma pushes_app out1 out2 : pushes (out1 ++ out2) = pushes out1 ++ pushes out2.
Proof. apply omap_app. Qed.

(** A step sends nothing and uses no nonce, or sends one push with the next
    nonce, which is then the outstanding one. *)
Lemma step_shape sv s e :
  (pushes (step sv s e).2 = [] ∧
   nextNonce (step sv s e).1.1 = nextNonce sv ∧
   (outstanding (step sv s e).1.2 = outstanding s ∨ outstanding (step sv s e).1.2 = None)) ∨
  (pushes (step sv s e).2 = [(nextNonce sv, config (step sv s e).1.1)] ∧
   nextNonce (step sv s e).1.1 = S (nextNonce sv) ∧
   outstanding (step sv s e).1.2 = Some (nextNonce sv, config (step sv s e).1.1)).
Proof.
  destruct e as [r| |]; simpl.
  - unfold onRequest, probe.
    destruct s as [|n v acc|acc|]; repeat (case_match || case_decide); simpl; auto.
  - unfold onConfigChange. destruct s; simpl; auto.
  - auto.
Qed.

Lemma step_sentSoFar sv s e sent :
  sentSoFar sv s sent →
  sentSoFar (step sv s e).1.1 (step sv s e).1.2 (sent ++ pushes (step sv s e).2).
Proof.
  intros (Hlt & Hnd & Hlast).
  destruct (step_shape sv s e) as [(-> & Hn & Ho) | (-> & Hn & Ho)].
  - rewrite app_nil_r. split; [by rewrite Hn|]. split; [done|].
    intros p Hp. destruct Ho as [Ho|Ho]; rewrite Ho in Hp; [by apply Hlast|done].
  - split; [|split].
    + rewrite Hn. apply Forall_app. split.
      * eapply Forall_impl; [done|]. simpl. lia.
      * constructor; [simpl; lia|constructor].
    + rewrite fmap_app. apply NoDup_app. split; [done|]. split.
      * intros n Hin ->%list_elem_of_singleton.
        apply list_elem_of_fmap in Hin as (p & Hp & Hin).
        rewrite Forall_forall in Hlt. specialize (Hlt p Hin). simpl in *. lia.
      * apply NoDup_singleton.
    + intros p Hp. rewrite Ho in Hp. injection Hp as <-. by rewrite last_snoc.
Qed.

Lemma run_sentSoFar es sv s sent :
  sentSoFar sv s sent →
  sentSoFar (run sv s es).1.1 (run sv s es).1.2 (sent ++ allPushes (run sv s es).2).
Proof.
  revert sv s sent. induction es as [|e es IH]; intros sv s sent Hinv; simpl.
  - unfold allPushes. simpl. by rewrite app_nil_r.
  - pose proof (step_sentSoFar sv s e sent Hinv) as Hstep.
    destruct (step sv s e) as [[sv1 s1] out]. simpl in Hstep.
    specialize (IH sv1 s1 _ Hstep).
    destruct (run sv1 s1 es) as [[sv2 s2] outs]. simpl in *.
    unfold allPushes in *. simpl. by rewrite pushes_app, app_assoc.
Qed.

(** A closed session sends nothing. *)
Lemma run_closed es sv : allPushes (run sv Closed es).2 = [].
Proof.
  revert sv. induction es as [|e es IH]; intros sv; [done|].
  simpl. destruct e as [r| |]; simpl.
  - specialize (IH sv). destruct (run sv Closed es) as [[sv2 s2] outs]. done.
  - specialize (IH {| config := S (config sv); nextNonce := nextNonce sv |}).
    destruct (run _ Closed es) as [[sv2 s2] outs]. done.
  - specialize (IH sv). destruct (run sv Closed es) as [[sv2 s2] outs]. done.
Qed.

(** While no request answers the outstanding nonce, nothing is pushed. *)
Lemma run_outstanding es sv nonce sentVersion accepted :
  (∀ r, ClientRequest r ∈ es → ResponseNonce r ≠ Some nonce) →
  allPushes (run sv (AwaitingAck nonce sentVersion accepted) es).2 = [].
Proof.
  revert sv. induction es as [|e es IH]; intros sv Hes; [done|].
  assert (∀ r, ClientRequest r ∈ es → ResponseNonce r ≠ Some nonce) as Hes'.
  { intros r Hr. apply Hes. by right. }
  simpl. destruct e as [r| |]; simpl.
  - rewrite decide_False by (apply Hes; by left).
    specialize (IH sv Hes').
    destruct (ErrorDetail r);
      destruct (run sv (AwaitingAck nonce sentVersion accepted) es) as [[sv2 s2] outs];
      done.
  - specialize (IH {| config := S (config sv); nextNonce := nextNonce sv |} Hes').
    destruct (run _ (AwaitingAck nonce sentVersion accepted) es) as [[sv2 s2] outs]. done.
  - pose proof (run_closed es sv) as Hclosed.
    destruct (run sv Closed es) as [[sv2 s2] outs]. done.
Qed.

(** *** The claim about the session *)

(** C6. For one connection and resource type: every push sent becomes the
    outstanding push of the session; while a push is outstanding and no
    request answers its nonce (neither acknowledgment nor negative
    acknowledgment), whatever else happens (changes of configuration,
    requests with other nonces, a disconnect) no push is sent; the
    acknowledgment of the outstanding nonce sends exactly one push, which
    becomes the outstanding one, when the configuration changed since the
    push was sent, and none otherwise; the negative acknowledgment sends
    none. In every run of a session every nonce belongs to one push and the
    outstanding push is the last push sent: at most one nonce is outstanding
    at a time. *)
Theorem flow_control :
  (∀ sv s e p,
     p ∈ pushes (step sv s e).2 →
     pushes (step sv s e).2 = [p] ∧ outstanding (step sv s e).1.2 = Some p) ∧
  (∀ sv nonce sentVersion accepted es,
     (∀ r, ClientRequest r ∈ es → ResponseNonce r ≠ Some nonce) →
     allPushes (run sv (AwaitingAck nonce sentVersion accepted) es).2 = []) ∧
  (∀ sv nonce sentVersion accepted r,
     isAck nonce r →
     let res := step sv (AwaitingAck nonce sentVersion accepted) (ClientRequest r) in
     if decide (config sv = sentVersion)
     then pushes res.2 = [] ∧ res.1.2 = Accepted (Some sentVersion)
     else pushes res.2 = [(nextNonce sv, config sv)]
          ∧ res.1.2 = AwaitingAck (nextNonce sv) (config sv) (Some sentVersion)) ∧
  (∀ sv nonce sentVersion accepted r,
     isNack nonce r →
     let res := step sv (AwaitingAck nonce sentVersion accepted) (ClientRequest r) in
     pushes res.2 = [] ∧ res.1.2 = Accepted accepted) ∧
  (∀ es,
     let final := (run initialServer Uninitialized es).1.2 in
     let sent := allPushes (run initialServer Uninitialized es).2 in
     NoDup sent.*1 ∧ ∀ p, outstanding final = Some p → last sent = Some p).
Proof.
  split; [|split; [|split; [|split]]].
  - intros sv s e p Hp.
    destruct (step_shape sv s e) as [(Hnone & _) | (Hone & _ & Hout)].
    + rewrite Hnone in Hp. by apply elem_of_nil in Hp.
    + rewrite Hone in Hp. apply list_elem_of_singleton in Hp as ->.
      by rewrite Hone, Hout.
  - intros sv nonce sentVersion accepted es. apply run_outstanding.
  - intros sv nonce sentVersion accepted r [Hn He] res. subst res.
    unfold step, onRequest.
    rewrite (decide_True (P := ResponseNonce r = Some nonce)) by done. rewrite He.
    by case_decide.
  - intros sv nonce sentVersion accepted r [Hn [d He]] res. subst res.
    unfold step, onRequest.
    rewrite (decide_True (P := ResponseNonce r = Some nonce)) by done. by rewrite He.
  - intros es final sent. subst final sent.
    destruct (run_sentSoFar es initialServer Uninitialized []) as (_ & Hnd & Hlast).
    { split; [constructor|]. split; [constructor|]. done. }
    done.
Qed.

(** While the first push, with nonce 0, is outstanding, a request with
    another nonce and a change of configuration send nothing; the
    acknowledgment of nonce 0 then sends the one push that was held back. *)
Example stale_request_waits :
  run initialServer Uninitialized
    [ ClientRequest {| ResponseNonce := None; VersionInfo := None; ErrorDetail := None |};
      ClientRequest {| ResponseNonce := Some 7; VersionInfo := Some 3; ErrorDetail := None |};
      ConfigChange;
      ClientRequest {| ResponseNonce := Some 0; VersionInfo := Some 0; ErrorDetail := None |} ]
  = ({| config := 1; nextNonce := 2 |}, AwaitingAck 1 1 (Some 0),
     [[Push 0 0]; []; []; [Push 1 1]]).
Proof. reflexivity. Qed.

(** A session in which the client acknowledges every push: the configuration
    changes twice while the first push is outstanding, and the acknowledgment
    unblocks one push; the acknowledgment of that one unblocks none. *)
Example acknowledged_run :
  run initialServer Uninitialized
    [ ClientRequest {| ResponseNonce := None; VersionInfo := None; ErrorDetail := None |};
      ConfigChange; ConfigChange;
      ClientRequest {| ResponseNonce := Some 0; VersionInfo := Some 0; ErrorDetail := None |};
      ClientRequest {| ResponseNonce := Some 1; VersionInfo := Some 2; ErrorDetail := None |} ]
  = ({| config := 2; nextNonce := 2 |}, Accepted (Some 2),
     [[Push 0 0]; []; []; [Push 1 2]; []]).
Proof. reflexivity. Qed.

(** The reconnect probe, on a session without an outstanding push: a request
    with a nonce the session does not know is answered by a push when its
    version is not the accepted one, and by nothing when it is. *)
Example reconnect_probe :
  step {| config := 4; nextNonce := 9 |} (Accepted (Some 4))
    (ClientRequest {| ResponseNonce := Some 7; VersionInfo := Some 3; ErrorDetail := None |})
  = ({| config := 4; nextNonce := 10 |}, AwaitingAck 9 4 (Some 4), [Push 9 4])
  ∧ step {| config := 4; nextNonce := 9 |} (Accepted (Some 4))
      (ClientRequest {| ResponseNonce := Some 7; VersionInfo := Some 4; ErrorDetail := None |})
    = ({| config := 4; nextNonce := 9 |}, Accepted (Some 4), []).
Proof. split; reflexivity. Qed.

(** Witness of C6: the acknowledgment of nonce 0 after a change of
    configuration. *)
Lemma flow_control_witness :
  pushes (step {| config := 1; nextNonce := 1 |} (AwaitingAck 0 0 None)
            (ClientRequest {| ResponseNonce := Some 0; VersionInfo := Some 0;
                              ErrorDetail := None |})).2
  = [(1, 1)]
  ∧ (step {| config := 1; nextNonce := 1 |} (AwaitingAck 0 0 None)
       (ClientRequest {| ResponseNonce := Some 0; VersionInfo := Some 0;
                         ErrorDetail := None |})).1.2
    = AwaitingAck 1 1 (Some 0).
Proof.
  exact (proj1 (proj2 (proj2 flow_control))
    {| config := 1; nextNonce := 1 |} 0 0 None
    {| ResponseNonce := Some 0; VersionInfo := Some 0; ErrorDetail := None |}
    (conj eq_refl eq_refl)).
Defined.

End PushSession.
